(** * CppEvents: the Event / Handler subscription protocol

    A shallow embedding of [include/events/event.h] (namespace [evnt]):
    the class templates [Handler<TArgs...>] and [Event<TArgs...>], their
    private helpers and their public operations, followed by the
    properties of the mirrored back-reference protocol.

    Objects live in a store indexed by their address; the two classes
    hold raw pointers to each other, so every member function is a
    computation over the whole store.  Dereferencing a pointer to no
    live object is undefined behaviour and is kept apart from a C++
    exception, which carries the state reached when it was thrown. *)

From stdpp Require Import gmap list.

Set Default Proof Using "Type".

(** ** Pointers *)

(** [Handler<TArgs...>*] and [Event<TArgs...>*]: addresses.  The two
    classes are distinct types, so each has its own address space. *)
Abbreviation HandlerPtr := nat (only parsing).
Abbreviation EventPtr := nat (only parsing).

(** ** [std::vector] operations used by the source *)

(** [std::find(v.begin(), v.end(), x)]: the position of the first element
    equal to [x]; [length v] stands for [v.end()]. *)
Fixpoint find (x : nat) (v : list nat) : nat :=
  match v with
  | [] => 0
  | y :: v' => if decide (y = x) then 0 else S (find x v')
  end.

(** [v.erase(it)] for an iterator [it] in range. *)
Definition erase (it : nat) (v : list nat) : list nat := delete it v.

(** [v.push_back(x)]. *)
Definition push_back (v : list nat) (x : nat) : list nat := v ++ [x].

(** Number of entries of [v] equal to [x]. *)
Definition occurrences (x : nat) (v : list nat) : nat :=
  length (filter (λ y, y = x) v).

(** Removal of the first entry equal to [x], if any (used in statements). *)
Fixpoint remove_first (x : nat) (v : list nat) : list nat :=
  match v with
  | [] => []
  | y :: v' => if decide (y = x) then v' else y :: remove_first x v'
  end.

(** [v] with every entry equal to [x] removed. *)
Definition remove_all (x : nat) (v : list nat) : list nat :=
  filter (λ y, y ≠ x) v.

Section Events.

(** [TArgs...] is the payload of a notification; [World] is everything
    a reaction can read and write outside the two classes (the captured
    counters of the tests, the console of the demo); [UserExn] is what
    a reaction can throw. *)
Context {TArgs World UserExn : Type}.

(** ** Data model *)

Inductive exn : Type :=
| bad_function_call                 (* std::bad_function_call *)
| user_exception (x : UserExn).

(** The result of running the target of a [std::function]: it returns,
    or it raises, in both cases leaving a world behind. *)
Inductive reaction_result : Type :=
| Returns (w : World)
| Raises (x : UserExn) (w : World).

(** A reaction acts on the world only.  It does not reach back into the
    events and handlers: what a pass does when a reaction subscribes or
    unsubscribes during the pass is left open by the design, and the
    range-for of [Event::invoke] would then iterate over a vector that
    changes under it. *)
Definition callable : Type := TArgs → World → reaction_result.

(** [std::function<void(TArgs...)>]: [None] is the empty function. *)
Definition std_function : Type := option callable.

Record Handler : Type := mkHandler {
  m_function : std_function;
  m_subscribedTo : list EventPtr
}.

Record Event : Type := mkEvent {
  m_handler : list HandlerPtr
}.

Record Heap : Type := mkHeap {
  handlers : gmap nat Handler;
  events : gmap nat Event
}.

Record State : Type := mkState {
  heap : Heap;
  world : World
}.

(** ** The computation monad *)

(** A member function returns normally, or leaves by a C++ exception, or
    has undefined behaviour because it dereferenced a pointer to no live
    object. *)
Inductive outcome (A : Type) : Type :=
| Normal (a : A) (s : State)
| Throws (x : exn) (s : State)
| Undefined.
Global Arguments Normal {A} a s.
Global Arguments Throws {A} x s.
Global Arguments Undefined {A}.

Definition M (A : Type) : Type := State → outcome A.

Definition ret {A} (a : A) : M A := λ s, Normal a s.

Definition bind {A B} (c : M A) (k : A → M B) : M B :=
  λ s, match c s with
       | Normal a s' => k a s'
       | Throws x s' => Throws x s'
       | Undefined => Undefined
       end.

Definition undefined {A} : M A := λ _, Undefined.

Local Notation "x <- c1 ;; c2" := (bind c1 (λ x, c2))
  (at level 100, c1 at next level, right associativity).
Local Notation "c1 ;; c2" := (bind c1 (λ _, c2))
  (at level 100, right associativity).

(** [for (auto x : v) body(x);] over a vector that the body leaves alone. *)
Fixpoint for_each {A} (v : list A) (body : A → M unit) : M unit :=
  match v with
  | [] => ret tt
  | x :: v' => body x ;; for_each v' body
  end.

(** *** Access to the members of a live object *)

Definition load_handler (p : HandlerPtr) : M Handler :=
  λ s, match handlers (heap s) !! p with
       | Some h => Normal h s
       | None => Undefined
       end.

Definition store_handler (p : HandlerPtr) (h : Handler) : M unit :=
  λ s, match handlers (heap s) !! p with
       | Some _ =>
           Normal tt (mkState (mkHeap (<[p := h]> (handlers (heap s)))
                                      (events (heap s))) (world s))
       | None => Undefined
       end.

Definition load_event (p : EventPtr) : M Event :=
  λ s, match events (heap s) !! p with
       | Some e => Normal e s
       | None => Undefined
       end.

Definition store_event (p : EventPtr) (e : Event) : M unit :=
  λ s, match events (heap s) !! p with
       | Some _ =>
           Normal tt (mkState (mkHeap (handlers (heap s))
                                      (<[p := e]> (events (heap s)))) (world s))
       | None => Undefined
       end.

Definition get_subscribedTo (p : HandlerPtr) : M (list EventPtr) :=
  h <- load_handler p ;; ret (m_subscribedTo h).

Definition set_subscribedTo (p : HandlerPtr) (v : list EventPtr) : M unit :=
  h <- load_handler p ;; store_handler p (mkHandler (m_function h) v).

Definition get_function (p : HandlerPtr) : M std_function :=
  h <- load_handler p ;; ret (m_function h).

Definition set_function (p : HandlerPtr) (f : std_function) : M unit :=
  h <- load_handler p ;; store_handler p (mkHandler f (m_subscribedTo h)).

Definition get_handler (p : EventPtr) : M (list HandlerPtr) :=
  e <- load_event p ;; ret (m_handler e).

Definition set_handler (p : EventPtr) (v : list HandlerPtr) : M unit :=
  _ <- load_event p ;; store_event p (mkEvent v).

(** Storage for a new object at an address that holds no live object of
    that class, and its release. *)
Definition alloc_handler (p : HandlerPtr) (h : Handler) : M unit :=
  λ s, match handlers (heap s) !! p with
       | Some _ => Undefined
       | None =>
           Normal tt (mkState (mkHeap (<[p := h]> (handlers (heap s)))
                                      (events (heap s))) (world s))
       end.

Definition free_handler (p : HandlerPtr) : M unit :=
  λ s, match handlers (heap s) !! p with
       | Some _ =>
           Normal tt (mkState (mkHeap (delete p (handlers (heap s)))
                                      (events (heap s))) (world s))
       | None => Undefined
       end.

Definition alloc_event (p : EventPtr) (e : Event) : M unit :=
  λ s, match events (heap s) !! p with
       | Some _ => Undefined
       | None =>
           Normal tt (mkState (mkHeap (handlers (heap s))
                                      (<[p := e]> (events (heap s)))) (world s))
       end.

Definition free_event (p : EventPtr) : M unit :=
  λ s, match events (heap s) !! p with
       | Some _ =>
           Normal tt (mkState (mkHeap (handlers (heap s))
                                      (delete p (events (heap s)))) (world s))
       | None => Undefined
       end.

(** [m_function(args...)]: calling an empty [std::function] throws
    [std::bad_function_call]. *)
Definition call (f : std_function) (args : TArgs) : M unit :=
  λ s, match f with
       | None => Throws bad_function_call s
       | Some g =>
           match g args (world s) with
           | Returns w => Normal tt (mkState (heap s) w)
           | Raises x w => Throws (user_exception x) (mkState (heap s) w)
           end
       end.

(** ** Private helpers *)

(** [Handler::removeEvent] *)
Definition removeEvent (this : HandlerPtr) (e : EventPtr) : M unit :=
  v <- get_subscribedTo this ;;
  let it := find e v in
  if decide (it ≠ length v) then set_subscribedTo this (erase it v)
  else ret tt.

(** [Handler::addEvent] *)
Definition addEvent (this : HandlerPtr) (e : EventPtr) : M unit :=
  v <- get_subscribedTo this ;;
  set_subscribedTo this (push_back v e).

(** [Event::subscribeConstHandler] *)
Definition subscribeConstHandler (this : EventPtr) (handler : HandlerPtr)
  : M unit :=
  v <- get_handler this ;;
  set_handler this (push_back v handler).

(** [Event::unsubscribeConstHandler] *)
Definition unsubscribeConstHandler (this : EventPtr) (handler : HandlerPtr)
  : M unit :=
  v <- get_handler this ;;
  let it := find handler v in
  if decide (it = length v) then ret tt
  else set_handler this (erase it v).

(** ** [Handler] *)

(** [Handler::Handler(std::function<void(TArgs...)>)] at address [this]. *)
Definition Handler_ctor (this : HandlerPtr) (function : std_function)
  : M unit :=
  alloc_handler this (mkHandler function []).

(** [Handler::invoke] *)
Definition Handler_invoke (this : HandlerPtr) (args : TArgs) : M unit :=
  f <- get_function this ;;
  call f args.

(** [Handler::reset] *)
Definition Handler_reset (this : HandlerPtr) : M unit :=
  v <- get_subscribedTo this ;;
  for_each v (λ e, unsubscribeConstHandler e this) ;;
  set_subscribedTo this [].

(** [std::swap] on the two data members. *)
Definition swap_subscribedTo (a b : HandlerPtr) : M unit :=
  va <- get_subscribedTo a ;;
  vb <- get_subscribedTo b ;;
  set_subscribedTo a vb ;;
  set_subscribedTo b va.

Definition swap_function (a b : HandlerPtr) : M unit :=
  fa <- get_function a ;;
  fb <- get_function b ;;
  set_function a fb ;;
  set_function b fa.

(** [Handler::swap] *)
Definition Handler_swap (this other : HandlerPtr) : M unit :=
  v <- get_subscribedTo this ;;
  for_each v (λ e, unsubscribeConstHandler e this) ;;
  v <- get_subscribedTo other ;;
  for_each v (λ e, unsubscribeConstHandler e other) ;;
  swap_subscribedTo this other ;;
  swap_function this other ;;
  v <- get_subscribedTo this ;;
  for_each v (λ e, subscribeConstHandler e this) ;;
  v <- get_subscribedTo other ;;
  for_each v (λ e, subscribeConstHandler e other).

(** [Handler::Handler(Handler&&)] : both members are default-initialised
    (an empty function, an empty vector) before the body runs. *)
Definition Handler_move_ctor (this other : HandlerPtr) : M unit :=
  alloc_handler this (mkHandler None []) ;;
  Handler_swap this other.

(** [Handler::operator=(Handler&&)] *)
Definition Handler_move_assign (this other : HandlerPtr) : M unit :=
  Handler_swap this other.

(** [Handler::~Handler], followed by the end of the object's lifetime. *)
Definition Handler_dtor (this : HandlerPtr) : M unit :=
  Handler_reset this ;;
  free_handler this.

(** ** [Event] *)

(** [Event::Event()] *)
Definition Event_ctor (this : EventPtr) : M unit :=
  alloc_event this (mkEvent []).

(** [Event::invoke] *)
Definition Event_invoke (this : EventPtr) (args : TArgs) : M unit :=
  v <- get_handler this ;;
  for_each v (λ h, Handler_invoke h args).

(** [Event::subscribe] on a pointer to a [HandlerT] *)
Definition Event_subscribe (this : EventPtr) (handler : HandlerPtr)
  : M unit :=
  subscribeConstHandler this handler ;;
  addEvent handler this.

(** [Event::unsubscribe] *)
Definition Event_unsubscribe (this : EventPtr) (handler : HandlerPtr)
  : M unit :=
  v <- get_handler this ;;
  let it := find handler v in
  if decide (it = length v) then ret tt
  else
    match v !! it with
    | Some h => removeEvent h this
    | None => undefined
    end ;;
    v' <- get_handler this ;;
    set_handler this (erase it v').

(** [Event::reset] *)
Definition Event_reset (this : EventPtr) : M unit :=
  v <- get_handler this ;;
  for_each v (λ h, removeEvent h this) ;;
  set_handler this [].

(** [std::swap(m_handler, other.m_handler)] *)
Definition swap_handler (a b : EventPtr) : M unit :=
  va <- get_handler a ;;
  vb <- get_handler b ;;
  set_handler a vb ;;
  set_handler b va.

(** [Event::swap] *)
Definition Event_swap (this other : EventPtr) : M unit :=
  v <- get_handler this ;;
  for_each v (λ h, removeEvent h this) ;;
  v <- get_handler other ;;
  for_each v (λ h, removeEvent h other) ;;
  swap_handler this other ;;
  v <- get_handler this ;;
  for_each v (λ h, addEvent h this) ;;
  v <- get_handler other ;;
  for_each v (λ h, addEvent h other).

(** [Event::Event(Event&&)] *)
Definition Event_move_ctor (this other : EventPtr) : M unit :=
  alloc_event this (mkEvent []) ;;
  Event_swap this other.

(** [Event::operator=(Event&&)] *)
Definition Event_move_assign (this other : EventPtr) : M unit :=
  Event_swap this other.

(** [Event::~Event], followed by the end of the object's lifetime. *)
Definition Event_dtor (this : EventPtr) : M unit :=
  Event_reset this ;;
  free_event this.

(** [Event::subscribe(std::function<void(TArgs...)>)]: the local [h]
    lives at [local], the returned object at [result].  The [return h;]
    is written without copy elision: the result is move-constructed from
    the local, which is then destroyed. *)
Definition Event_subscribe_function (this : EventPtr)
    (function : std_function) (local result : HandlerPtr) : M unit :=
  Handler_ctor local function ;;
  Event_subscribe this local ;;
  Handler_move_ctor result local ;;
  Handler_dtor local.

(** ** Observations used in the statements *)

(** The [m_handler] of the event at [e]; an address that holds no live
    event has no subscribers. *)
Definition subscribers (σ : Heap) (e : EventPtr) : list HandlerPtr :=
  match events σ !! e with
  | Some ev => m_handler ev
  | None => []
  end.

(** The [m_subscribedTo] of the handler at [h]. *)
Definition subscriptions (σ : Heap) (h : HandlerPtr) : list EventPtr :=
  match handlers σ !! h with
  | Some hd => m_subscribedTo hd
  | None => []
  end.

(** The mirrored-subscription invariant: [h] is listed by [e] exactly as
    often as [e] is listed by [h].  It ranges over all addresses, so it
    also says that no list holds a pointer to a dead object. *)
Definition mirrored (σ : Heap) : Prop :=
  ∀ h e, occurrences h (subscribers σ e) = occurrences e (subscriptions σ h).

(** The notification pass as the specification words it: the reactions
    run one after the other in list order, each on the world its
    predecessor left, and the pass ends at the first one that raises. *)
Fixpoint fan_out (fs : list std_function) (args : TArgs) (w : World)
  : option exn * World :=
  match fs with
  | [] => (None, w)
  | None :: _ => (Some bad_function_call, w)
  | Some g :: fs' =>
      match g args w with
      | Returns w' => fan_out fs' args w'
      | Raises x w' => (Some (user_exception x), w')
      end
  end.

(** What the caller of a notification pass sees: the exception, if one
    was raised, and the world the pass left; the store is the one the
    pass started from. *)
Definition pass_outcome (σ : Heap) (r : option exn * World) : outcome unit :=
  match r with
  | (None, w) => Normal tt (mkState σ w)
  | (Some x, w) => Throws x (mkState σ w)
  end.

(** [h] is a live handler whose reaction is [f]. *)
Definition has_function (σ : Heap) (h : HandlerPtr) (f : std_function)
  : Prop :=
  ∃ v, handlers σ !! h = Some (mkHandler f v).

(** ** The public operations that change the relationship lists *)

Inductive operation : Type :=
| Handler_ctor_op (this : HandlerPtr) (function : std_function)
| Handler_reset_op (this : HandlerPtr)
| Handler_swap_op (this other : HandlerPtr)
| Handler_move_ctor_op (this other : HandlerPtr)
| Handler_move_assign_op (this other : HandlerPtr)
| Handler_dtor_op (this : HandlerPtr)
| Event_ctor_op (this : EventPtr)
| Event_subscribe_op (this : EventPtr) (handler : HandlerPtr)
| Event_unsubscribe_op (this : EventPtr) (handler : HandlerPtr)
| Event_reset_op (this : EventPtr)
| Event_swap_op (this other : EventPtr)
| Event_move_ctor_op (this other : EventPtr)
| Event_move_assign_op (this other : EventPtr)
| Event_dtor_op (this : EventPtr)
| Event_subscribe_function_op (this : EventPtr) (function : std_function)
    (local result : HandlerPtr).

Definition perform (o : operation) : M unit :=
  match o with
  | Handler_ctor_op this function => Handler_ctor this function
  | Handler_reset_op this => Handler_reset this
  | Handler_swap_op this other => Handler_swap this other
  | Handler_move_ctor_op this other => Handler_move_ctor this other
  | Handler_move_assign_op this other => Handler_move_assign this other
  | Handler_dtor_op this => Handler_dtor this
  | Event_ctor_op this => Event_ctor this
  | Event_subscribe_op this handler => Event_subscribe this handler
  | Event_unsubscribe_op this handler => Event_unsubscribe this handler
  | Event_reset_op this => Event_reset this
  | Event_swap_op this other => Event_swap this other
  | Event_move_ctor_op this other => Event_move_ctor this other
  | Event_move_assign_op this other => Event_move_assign this other
  | Event_dtor_op this => Event_dtor this
  | Event_subscribe_function_op this function local result =>
      Event_subscribe_function this function local result
  end.

Definition live_handler (σ : Heap) (p : HandlerPtr) : Prop :=
  is_Some (handlers σ !! p).

Definition live_event (σ : Heap) (p : EventPtr) : Prop :=
  is_Some (events σ !! p).

(** The call is one a program can make: every reference designates a
    live object and every new object gets an address of its own. *)
Definition admissible (σ : Heap) (o : operation) : Prop :=
  match o with
  | Handler_ctor_op this _ => ¬ live_handler σ this
  | Handler_reset_op this | Handler_dtor_op this => live_handler σ this
  | Handler_swap_op this other | Handler_move_assign_op this other =>
      live_handler σ this ∧ live_handler σ other
  | Handler_move_ctor_op this other =>
      ¬ live_handler σ this ∧ live_handler σ other
  | Event_ctor_op this => ¬ live_event σ this
  | Event_subscribe_op this handler =>
      live_event σ this ∧ live_handler σ handler
  | Event_unsubscribe_op this _ => live_event σ this
  | Event_reset_op this | Event_dtor_op this => live_event σ this
  | Event_swap_op this other | Event_move_assign_op this other =>
      live_event σ this ∧ live_event σ other
  | Event_move_ctor_op this other =>
      ¬ live_event σ this ∧ live_event σ other
  | Event_subscribe_function_op this _ local result =>
      live_event σ this ∧ ¬ live_handler σ local ∧
      ¬ live_handler σ result ∧ local ≠ result
  end.

(** An exchange of an object with itself. *)
Definition self_exchange (o : operation) : Prop :=
  match o with
  | Handler_swap_op this other | Handler_move_assign_op this other
  | Event_swap_op this other | Event_move_assign_op this other =>
      this = other
  | _ => False
  end.

(** ** A decision procedure for the invariant *)

(** Every handler address the store knows of: the live handlers and
    the entries of the [m_handler] vectors. *)
Definition known_handlers (σ : Heap) : list HandlerPtr :=
  (map_to_list (handlers σ)).*1 ++
  concat (m_handler <$> (map_to_list (events σ)).*2).

Definition known_events (σ : Heap) : list EventPtr :=
  (map_to_list (events σ)).*1 ++
  concat (m_subscribedTo <$> (map_to_list (handlers σ)).*2).

Definition mirroredb (σ : Heap) : bool :=
  forallb (λ h,
    forallb (λ e,
      bool_decide (occurrences h (subscribers σ e) =
                   occurrences e (subscriptions σ h)))
      (known_events σ))
    (known_handlers σ).

(** ** The states a program can reach

    From no object at all, by admissible calls of the operations above
    that do not exchange an object with itself, and by notification
    passes, whether they return or throw. *)
Inductive reachable : State → Prop :=
| reachable_start (w : World) :
    reachable (mkState (mkHeap ∅ ∅) w)
| reachable_perform s o s' :
    reachable s → admissible (heap s) o → ¬ self_exchange o →
    perform o s = Normal tt s' → reachable s'
| reachable_invoke_returns s e args s' :
    reachable s → Event_invoke e args s = Normal tt s' → reachable s'
| reachable_invoke_throws s e args x s' :
    reachable s → Event_invoke e args s = Throws x s' → reachable s'.

(** ** Handlers bound to a member function *)

(** What a call [(object->*func)(args...)] does: it returns a value or
    raises, and leaves a world behind (the object is part of the world). *)
Inductive member_result (TReturn : Type) : Type :=
| MemberReturns (r : TReturn) (w : World)
| MemberRaises (x : UserExn) (w : World).
Global Arguments MemberReturns {TReturn} r w.
Global Arguments MemberRaises {TReturn} x w.

(** A pointer to a member function taking [TArgs...] and returning
    [TReturn], applied to the object at an address. *)
Definition member_function (TReturn : Type) : Type :=
  nat → TArgs → World → member_result TReturn.

(** The closure [[object, func](TArgs... args)
    { std::invoke(func, object, args...); }]. *)
Definition bound_member {TReturn} (object : nat)
    (func : member_function TReturn) : callable :=
  λ args w,
    match func object args w with
    | MemberReturns _ w' => Returns w'
    | MemberRaises x w' => Raises x w'
    end.

(** [Handler::Handler(TClass* object, TReturn (TClass::*func)(TArgs...))] *)
Definition Handler_ctor_member {TReturn} (this : HandlerPtr) (object : nat)
    (func : member_function TReturn) : M unit :=
  alloc_handler this (mkHandler (Some (bound_member object func)) []).

(** [Handler::Handler(const TClass* object,
    TReturn (TClass::*func)(TArgs...) const)]: a delegating constructor;
    the two casts change the static types of its arguments only. *)
Definition Handler_ctor_const_member {TReturn} (this : HandlerPtr)
    (object : nat) (func : member_function TReturn) : M unit :=
  Handler_ctor_member this object func.

(** ** Predicates used in the further properties *)

(** A computation that, whenever it is defined, returns normally and
    leaves the world as it found it. *)
Definition quiet {A} (c : M A) : Prop :=
  ∀ s, match c s with
       | Normal _ s' => world s' = world s
       | Throws _ _ => False
       | Undefined => True
       end.

(** The functions [fs] of the entries [v], without those of the entries
    equal to [h]. *)
Definition functions_without (h : HandlerPtr) (v : list HandlerPtr)
    (fs : list std_function) : list std_function :=
  (filter (λ p, p.1 ≠ h) (zip v fs)).*2.

End Events.

(** ** Concrete programs: [Event<int>] and the reactions of the test-suite *)

Module Scenario.

(** The world of the tests: the integer counters that the lambdas
    capture by reference, by name.  A reaction can throw an error code. *)
Definition add_to (k : nat) : @callable Z (gmap nat Z) nat :=
  λ i w, Returns (<[k := (default 0 (w !! k) + i)%Z]> w).

Definition failing (code : nat) : @callable Z (gmap nat Z) nat :=
  λ _ w, Raises code w.

(** No object yet, no counter touched. *)
Definition start : @State Z (gmap nat Z) nat :=
  mkState (mkHeap ∅ ∅) ∅.

(** Handlers [1] and [2] subscribed, in this order, to event [0], as in
    the test [ManualSubsribeUnsubscribe] after the second [subscribe]. *)
Definition two_subscribed : @State Z (gmap nat Z) nat :=
  mkState (mkHeap {[ 1 := mkHandler (Some (add_to 1)) [0];
                     2 := mkHandler (Some (add_to 2)) [0] ]}
                  {[ 0 := mkEvent [1; 2] ]})
          ∅.

(** Handlers [1], [2] and [3] subscribed, in this order, to event [0]. *)
Definition three_subscribed : @State Z (gmap nat Z) nat :=
  mkState (mkHeap {[ 1 := mkHandler (Some (add_to 1)) [0];
                     2 := mkHandler (Some (add_to 2)) [0];
                     3 := mkHandler (Some (add_to 3)) [0] ]}
                  {[ 0 := mkEvent [1; 2; 3] ]})
          ∅.

(** Handler [1] subscribed to event [0]. *)
Definition one_subscribed : @State Z (gmap nat Z) nat :=
  mkState (mkHeap {[ 1 := mkHandler (Some (add_to 1)) [0] ]}
                  {[ 0 := mkEvent [1] ]})
          ∅.

(** A sequence of calls, each run on the state its predecessor left. *)
Definition script (calls : list (@M Z (gmap nat Z) nat unit))
  : @M Z (gmap nat Z) nat unit :=
  foldr (λ c k, bind c (λ _, k)) (ret tt) calls.

(** The counters a run ended with, when it returned normally. *)
Definition counters (r : @outcome Z (gmap nat Z) nat unit)
  : option (list (nat * Z)) :=
  match r with
  | Normal _ s => Some (map_to_list (world s))
  | _ => None
  end.

(** The test [ManualSubsribeUnsubscribe]: event [0], handlers [1] and
    [2] with counters [1] and [2]. *)
Definition ManualSubsribeUnsubscribe : @M Z (gmap nat Z) nat unit :=
  script [ Event_ctor 0;
           Handler_ctor 1 (Some (add_to 1));
           Handler_ctor 2 (Some (add_to 2));
           Event_invoke 0 5%Z;
           Event_subscribe 0 1;
           Event_invoke 0 5%Z;
           Event_subscribe 0 2;
           Event_invoke 0 2%Z;
           Event_unsubscribe 0 1;
           Event_invoke 0 1%Z;
           Event_unsubscribe 0 1;
           Event_invoke 0 1%Z ].

(** The test [HandlerScope]: [h1] lives at [1], [h2] at [2]; the locals
    of the two [subscribe] calls live at [11] and [12]. *)
Definition HandlerScope : @M Z (gmap nat Z) nat unit :=
  script [ Event_ctor 0;
           Event_subscribe_function 0 (Some (add_to 1)) 11 1;
           Event_subscribe_function 0 (Some (add_to 2)) 12 2;
           Event_invoke 0 3%Z;
           Handler_dtor 2;
           Event_invoke 0 1%Z ].

(** The test [HandlerReset]: events [0] and [1], handler [1]. *)
Definition HandlerReset : @M Z (gmap nat Z) nat unit :=
  script [ Event_ctor 0;
           Event_ctor 1;
           Event_subscribe_function 0 (Some (add_to 1)) 11 1;
           Event_invoke 0 1%Z;
           Event_subscribe 1 1;
           Event_invoke 1 1%Z;
           Handler_reset 1;
           Event_invoke 0 10%Z;
           Event_invoke 1 10%Z ].

(** The test [EventReset]. *)
Definition EventReset : @M Z (gmap nat Z) nat unit :=
  script [ Handler_ctor 1 (Some (add_to 1));
           Handler_ctor 2 (Some (add_to 2));
           Event_ctor 0;
           Event_subscribe 0 1;
           Event_subscribe 0 2;
           Event_invoke 0 1%Z;
           Event_reset 0;
           Event_invoke 0 1%Z ].

(** The construction of [two_subscribed] from nothing. *)
Definition build_two_subscribed : @M Z (gmap nat Z) nat unit :=
  script [ Event_ctor 0;
           Handler_ctor 1 (Some (add_to 1));
           Handler_ctor 2 (Some (add_to 2));
           Event_subscribe 0 1;
           Event_subscribe 0 2 ].

(** Handler [1] subscribed to event [0] and handler [2] to event [1]. *)
Definition two_pairs : @State Z (gmap nat Z) nat :=
  mkState (mkHeap {[ 1 := mkHandler (Some (add_to 1)) [0];
                     2 := mkHandler (Some (add_to 2)) [1] ]}
                  {[ 0 := mkEvent [1];
                     1 := mkEvent [2] ]})
          ∅.

(** Event [0] notifies handler [1], then handler [2], whose reaction
    raises error [7], then handler [3]. *)
Definition second_fails : @State Z (gmap nat Z) nat :=
  mkState (mkHeap {[ 1 := mkHandler (Some (add_to 1)) [0];
                     2 := mkHandler (Some (failing 7)) [0];
                     3 := mkHandler (Some (add_to 3)) [0] ]}
                  {[ 0 := mkEvent [1; 2; 3] ]})
          ∅.

(** The test [Invoke]: the counter [1] stands for [called]. *)
Definition Invoke : @M Z (gmap nat Z) nat unit :=
  script [ Event_ctor 0;
           Event_subscribe_function 0 (Some (add_to 1)) 11 1;
           Event_invoke 0 1%Z ].

(** The test [EventScope]: the event dies before the handler. *)
Definition EventScope : @M Z (gmap nat Z) nat unit :=
  script [ Handler_ctor 1 (Some (add_to 1));
           Event_ctor 0;
           Event_subscribe 0 1;
           Event_invoke 0 1%Z;
           Event_dtor 0;
           Handler_dtor 1 ].

(** [TestClass::testFunc1]: [val = arg], with [val] of the object at
    [object] kept in the counter of that name. *)
Definition testFunc1 : @member_function Z (gmap nat Z) nat unit :=
  λ object arg w, MemberReturns tt (<[object := arg]> w).

(** [TestClass::testFunc2]: it only looks at its argument. *)
Definition testFunc2 : @member_function Z (gmap nat Z) nat unit :=
  λ _ _ w, MemberReturns tt w.

(** The test [HandlerClassConstructor]: the object [c] lives at [5], its
    members [mutHandler] and [constHandler] at [1] and [2]; members are
    destroyed in the reverse order of their declaration. *)
Definition HandlerClassConstructor : @M Z (gmap nat Z) nat unit :=
  script [ Event_ctor 0;
           Handler_ctor_member 1 5 testFunc1;
           Handler_ctor_const_member 2 5 testFunc2;
           Event_subscribe 0 1;
           Event_subscribe 0 2;
           Event_invoke 0 2%Z;
           Handler_dtor 2;
           Handler_dtor 1;
           Event_invoke 0 1%Z ].

End Scenario.

(** ** Reactions that log the calls they receive *)

Module CallLog.

(** The world is the list of the calls made so far: which handler's
    reaction ran, and on which argument. *)
Definition record (h : HandlerPtr)
  : @callable Z (list (nat * Z)) Empty_set :=
  λ args w, Returns (w ++ [(h, args)]).

End CallLog.

(** ** The demonstration program *)

Module Demo.

(** What the program writes to [std::cout]: each reaction prints its
    argument followed by its own name. *)
Inductive name : Type := testFunc_name | testFunc2_name.

Definition testFunc : @callable Z (list (Z * name)) Empty_set :=
  λ i w, Returns (w ++ [(i, testFunc_name)]).

Definition testFunc2 : @callable Z (list (Z * name)) Empty_set :=
  λ i w, Returns (w ++ [(i, testFunc2_name)]).

(** [main]: the globals [MyEvent] and [MyEvent2] live at [0] and [1],
    [myHand] at [1] and [myHand2] at [2].  [myHand2] dies at the end of its
    block, [myHand] when [main] returns, and the two globals after that,
    in the reverse order of their construction. *)
Definition main : @M Z (list (Z * name)) Empty_set unit :=
  foldr (λ c k, bind c (λ _, k)) (ret tt)
    [ Event_ctor 0;
      Event_ctor 1;
      Handler_ctor 1 (Some testFunc);
      Event_subscribe 0 1;
      Event_subscribe 1 1;
      Handler_ctor 2 (Some testFunc2);
      Event_subscribe 0 2;
      Event_invoke 0 1%Z;
      Handler_dtor 2;
      Event_invoke 0 2%Z;
      Handler_reset 1;
      Event_invoke 0 3%Z;
      Event_reset 0;
      Event_invoke 0 4%Z;
      Handler_dtor 1;
      Event_dtor 1;
      Event_dtor 0 ].

End Demo.

(** ** Facts about the vector operations *)

Lemma find_le x v : find x v ≤ length v.
Proof. induction v as [|y v IH]; simpl; [lia|]. case_decide; lia. Qed.

Lemma find_end x v : find x v = length v ↔ x ∉ v.
Proof.
  induction v as [|y v IH]; simpl.
  - split; [intros _; apply not_elem_of_nil | done].
  - case_decide as Hy.
    + subst. split; [lia | intros []; left].
    + rewrite not_elem_of_cons. split.
      * intros [= Hf]. split; [congruence | by apply IH].
      * intros [_ Hn]. f_equal. by apply IH.
Qed.

Lemma find_lookup x v : x ∈ v → v !! find x v = Some x.
Proof.
  induction v as [|y v IH]; simpl; [by intros ?%elem_of_nil|].
  intros Hin. case_decide as Hy; [by subst|].
  apply elem_of_cons in Hin as [->|Hin]; [done | by apply IH].
Qed.

(** [find] never points inside the segment before the first occurrence:
    the entry it designates is the first one equal to [x]. *)
Lemma find_first x pre post : x ∉ pre → find x (pre ++ x :: post) = length pre.
Proof.
  induction pre as [|y pre IH]; simpl; intros Hn.
  - by rewrite decide_True.
  - apply not_elem_of_cons in Hn as [Hne Hn].
    rewrite decide_False by done. f_equal. by apply IH.
Qed.

Lemma erase_find x v : erase (find x v) v = remove_first x v.
Proof.
  unfold erase. induction v as [|y v IH]; simpl; [done|].
  case_decide; simpl; [done | by rewrite IH].
Qed.

Lemma remove_first_absent x v : x ∉ v → remove_first x v = v.
Proof.
  induction v as [|y v IH]; simpl; [done|].
  intros [Hne Hn]%not_elem_of_cons.
  rewrite decide_False by done. f_equal. by apply IH.
Qed.

Lemma remove_first_split x pre post :
  x ∉ pre → remove_first x (pre ++ x :: post) = pre ++ post.
Proof.
  induction pre as [|y pre IH]; simpl; intros Hn.
  - by rewrite decide_True.
  - apply not_elem_of_cons in Hn as [Hne Hn].
    rewrite decide_False by done. f_equal. by apply IH.
Qed.

Lemma remove_first_push_back x v : x ∉ v → remove_first x (push_back v x) = v.
Proof.
  intros Hn. unfold push_back.
  rewrite (remove_first_split x v []) by done. by rewrite app_nil_r.
Qed.

Lemma occurrences_nil x : occurrences x [] = 0.
Proof. done. Qed.

Lemma occurrences_cons x y v :
  occurrences x (y :: v) = (if decide (y = x) then 1 else 0) + occurrences x v.
Proof. unfold occurrences. rewrite filter_cons. by case_decide. Qed.

Lemma occurrences_app x v1 v2 :
  occurrences x (v1 ++ v2) = occurrences x v1 + occurrences x v2.
Proof. unfold occurrences. by rewrite filter_app, length_app. Qed.

Lemma occurrences_push_back x y v :
  occurrences x (push_back v y) =
  occurrences x v + (if decide (y = x) then 1 else 0).
Proof.
  unfold push_back. rewrite occurrences_app, occurrences_cons, occurrences_nil.
  lia.
Qed.

Lemma occurrences_replicate x y n :
  occurrences x (replicate n y) = if decide (y = x) then n else 0.
Proof.
  induction n as [|n IH]; simpl.
  - by case_decide.
  - rewrite occurrences_cons, IH. by case_decide.
Qed.

Lemma occurrences_zero x v : occurrences x v = 0 ↔ x ∉ v.
Proof.
  induction v as [|y v IH].
  - split; [intros _; apply not_elem_of_nil | done].
  - rewrite occurrences_cons, not_elem_of_cons. case_decide as Hy.
    + subst. split; [lia | by intros [? _]].
    + rewrite <- IH. split; [intros; split; [congruence | lia] | intros [_ ?]; lia].
Qed.

Lemma occurrences_pos x v : 0 < occurrences x v ↔ x ∈ v.
Proof.
  destruct (decide (x ∈ v)) as [Hin|Hn].
  - split; [done|]. intros _.
    destruct (occurrences x v) eqn:E; [|lia].
    by apply occurrences_zero in E.
  - apply occurrences_zero in Hn as E. split; [lia | done].
Qed.

Lemma occurrences_remove_first_eq x v :
  occurrences x (remove_first x v) = occurrences x v - 1.
Proof.
  induction v as [|y v IH]; simpl; [done|].
  rewrite occurrences_cons. case_decide as Hy; [lia|].
  by rewrite occurrences_cons, decide_False, IH by done.
Qed.

Lemma occurrences_remove_first_ne x y v :
  x ≠ y → occurrences x (remove_first y v) = occurrences x v.
Proof.
  intros Hne. induction v as [|z v IH]; simpl; [done|].
  rewrite occurrences_cons. case_decide as Hz.
  - subst. by rewrite decide_False by done.
  - by rewrite occurrences_cons, IH.
Qed.

Lemma occurrences_remove_all_eq x v : occurrences x (remove_all x v) = 0.
Proof.
  apply occurrences_zero. unfold remove_all.
  rewrite list_elem_of_filter. by intros [? _].
Qed.

Lemma occurrences_remove_all_ne x y v :
  x ≠ y → occurrences x (remove_all y v) = occurrences x v.
Proof.
  intros Hne. unfold remove_all.
  induction v as [|z v IH]; [done|].
  rewrite filter_cons. case_decide as Hz.
  - by rewrite !occurrences_cons, IH.
  - subst. by rewrite occurrences_cons, decide_False, IH by done.
Qed.

Lemma remove_all_absent x v : x ∉ v → remove_all x v = v.
Proof.
  unfold remove_all. induction v as [|y v IH]; [done|].
  intros [Hne Hn]%not_elem_of_cons.
  rewrite filter_cons, decide_True by done. f_equal. by apply IH.
Qed.

(** Removing the first occurrence as many times as there are occurrences
    removes them all. *)
Lemma iter_remove_first x v n :
  occurrences x v ≤ n → Nat.iter n (remove_first x) v = remove_all x v.
Proof.
  revert v. induction n as [|n IH]; intros v Hn.
  - simpl. symmetry. apply remove_all_absent, occurrences_zero. lia.
  - rewrite Nat.iter_succ_r, IH.
    + unfold remove_all. clear. induction v as [|y v IHv]; simpl; [done|].
      rewrite (filter_cons _ y v). case_decide as Hy.
      * subst. by rewrite decide_False by (intros ?; done).
      * by rewrite decide_True, filter_cons, decide_True, IHv by done.
    + rewrite occurrences_remove_first_eq. lia.
Qed.

(** ** Execution of the primitives *)

Section Execution.

Context {TArgs World UserExn : Type}.

Local Abbreviation State := (@State TArgs World UserExn).
Local Abbreviation Heap := (@Heap TArgs World UserExn).
Local Abbreviation Handler := (@Handler TArgs World UserExn).
Local Abbreviation M := (@M TArgs World UserExn).

Implicit Types (s : State) (σ : Heap) (hd : Handler) (ev : Event).
Implicit Types (h e this other : nat) (v l : list nat).

Lemma bind_Normal {A B} (c : M A) (k : A → M B) s a s' :
  c s = Normal a s' → bind c k s = k a s'.
Proof. unfold bind. by intros ->. Qed.

Lemma get_handler_live s e ev :
  events (heap s) !! e = Some ev → get_handler e s = Normal (m_handler ev) s.
Proof. intros He. unfold get_handler, bind, load_event. by rewrite He. Qed.

Lemma set_handler_live s e ev v :
  events (heap s) !! e = Some ev →
  set_handler e v s =
  Normal tt (mkState (mkHeap (handlers (heap s))
                             (<[e := mkEvent v]> (events (heap s))))
                     (world s)).
Proof.
  intros He. unfold set_handler, bind, load_event, store_event.
  by rewrite He, He.
Qed.

Lemma get_subscribedTo_live s h hd :
  handlers (heap s) !! h = Some hd →
  get_subscribedTo h s = Normal (m_subscribedTo hd) s.
Proof. intros Hh. unfold get_subscribedTo, bind, load_handler. by rewrite Hh. Qed.

Lemma get_function_live s h hd :
  handlers (heap s) !! h = Some hd →
  get_function h s = Normal (m_function hd) s.
Proof. intros Hh. unfold get_function, bind, load_handler. by rewrite Hh. Qed.

Lemma set_subscribedTo_live s h hd v :
  handlers (heap s) !! h = Some hd →
  set_subscribedTo h v s =
  Normal tt (mkState (mkHeap (<[h := mkHandler (m_function hd) v]>
                                (handlers (heap s)))
                             (events (heap s)))
                     (world s)).
Proof.
  intros Hh. unfold set_subscribedTo, bind, load_handler, store_handler.
  by rewrite Hh, Hh.
Qed.

Lemma set_function_live s h hd f :
  handlers (heap s) !! h = Some hd →
  set_function h f s =
  Normal tt (mkState (mkHeap (<[h := mkHandler f (m_subscribedTo hd)]>
                                (handlers (heap s)))
                             (events (heap s)))
                     (world s)).
Proof.
  intros Hh. unfold set_function, bind, load_handler, store_handler.
  by rewrite Hh, Hh.
Qed.

(** *** The private helpers on a live receiver *)

Lemma subscribeConstHandler_live s e ev h :
  events (heap s) !! e = Some ev →
  subscribeConstHandler e h s =
  Normal tt (mkState (mkHeap (handlers (heap s))
                             (<[e := mkEvent (push_back (m_handler ev) h)]>
                                (events (heap s))))
                     (world s)).
Proof.
  intros He. unfold subscribeConstHandler.
  rewrite (bind_Normal _ _ _ _ _ (get_handler_live _ _ _ He)).
  by apply (set_handler_live _ _ ev).
Qed.

Lemma unsubscribeConstHandler_live s e ev h :
  events (heap s) !! e = Some ev →
  unsubscribeConstHandler e h s =
  Normal tt (mkState (mkHeap (handlers (heap s))
                             (<[e := mkEvent (remove_first h (m_handler ev))]>
                                (events (heap s))))
                     (world s)).
Proof.
  intros He. unfold unsubscribeConstHandler.
  rewrite (bind_Normal _ _ _ _ _ (get_handler_live _ _ _ He)).
  case_decide as Hit.
  - apply find_end in Hit. rewrite remove_first_absent by done.
    destruct ev as [v]; simpl in *. rewrite insert_id by done.
    unfold ret. by destruct s as [[??]?].
  - rewrite (set_handler_live _ _ _ _ He). by rewrite erase_find.
Qed.

Lemma addEvent_live s h hd e :
  handlers (heap s) !! h = Some hd →
  addEvent h e s =
  Normal tt (mkState (mkHeap (<[h := mkHandler (m_function hd)
                                       (push_back (m_subscribedTo hd) e)]>
                                (handlers (heap s)))
                             (events (heap s)))
                     (world s)).
Proof.
  intros Hh. unfold addEvent.
  rewrite (bind_Normal _ _ _ _ _ (get_subscribedTo_live _ _ _ Hh)).
  by apply set_subscribedTo_live.
Qed.

Lemma removeEvent_live s h hd e :
  handlers (heap s) !! h = Some hd →
  removeEvent h e s =
  Normal tt (mkState (mkHeap (<[h := mkHandler (m_function hd)
                                       (remove_first e (m_subscribedTo hd))]>
                                (handlers (heap s)))
                             (events (heap s)))
                     (world s)).
Proof.
  intros Hh. unfold removeEvent.
  rewrite (bind_Normal _ _ _ _ _ (get_subscribedTo_live _ _ _ Hh)).
  case_decide as Hit.
  - rewrite (set_subscribedTo_live _ _ _ _ Hh). by rewrite erase_find.
  - apply find_end in Hit. rewrite remove_first_absent by done.
    destruct hd as [f v]; simpl in *. rewrite insert_id by done.
    unfold ret. by destruct s as [[??]?].
Qed.

(** *** Loops over a vector of pointers

    Each loop of the source visits the objects named by a vector and
    applies one list transformation [g] to the vector held by each of
    them; an object named [n] times is transformed [n] times. *)

Lemma for_each_events (g : list nat → list nat) (body : nat → M unit) l s :
  (∀ e s ev, events (heap s) !! e = Some ev →
     body e s =
     Normal tt (mkState (mkHeap (handlers (heap s))
                                (<[e := mkEvent (g (m_handler ev))]>
                                   (events (heap s))))
                        (world s))) →
  (∀ e, e ∈ l → is_Some (events (heap s) !! e)) →
  ∃ E', for_each l body s =
        Normal tt (mkState (mkHeap (handlers (heap s)) E') (world s)) ∧
        ∀ e, E' !! e =
             (λ ev, mkEvent (Nat.iter (occurrences e l) g (m_handler ev)))
               <$> (events (heap s) !! e).
Proof.
  intros Hbody. revert s. induction l as [|e0 l IH]; intros s Hlive.
  - exists (events (heap s)). split.
    + simpl. unfold ret. by destruct s as [[??]?].
    + intros e. destruct (events (heap s) !! e) as [[v]|]; done.
  - destruct (Hlive e0) as [ev0 He0]; [left|].
    simpl. rewrite (bind_Normal _ _ _ _ _ (Hbody _ _ _ He0)).
    edestruct (IH (mkState (mkHeap (handlers (heap s))
                   (<[e0 := mkEvent (g (m_handler ev0))]> (events (heap s))))
                   (world s))) as (E' & Hrun & HE').
    { intros e He. simpl. rewrite lookup_insert_is_Some.
      destruct (decide (e0 = e)); [by left|right].
      split; [done|]. apply Hlive. by right. }
    exists E'. split; [exact Hrun|].
    intros e. rewrite HE'. cbn [events heap]. rewrite occurrences_cons.
    destruct (decide (e0 = e)) as [->|Hne].
    + rewrite lookup_insert_eq, He0.
      change (1 + occurrences e l) with (S (occurrences e l)).
      cbn [fmap option_fmap option_map m_handler].
      by rewrite Nat.iter_succ_r.
    + by rewrite lookup_insert_ne.
Qed.

Lemma for_each_handlers (g : list nat → list nat) (body : nat → M unit) l s :
  (∀ h s hd, handlers (heap s) !! h = Some hd →
     body h s =
     Normal tt (mkState (mkHeap (<[h := mkHandler (m_function hd)
                                          (g (m_subscribedTo hd))]>
                                   (handlers (heap s)))
                                (events (heap s)))
                        (world s))) →
  (∀ h, h ∈ l → is_Some (handlers (heap s) !! h)) →
  ∃ H', for_each l body s =
        Normal tt (mkState (mkHeap H' (events (heap s))) (world s)) ∧
        ∀ h, H' !! h =
             (λ hd, mkHandler (m_function hd)
                      (Nat.iter (occurrences h l) g (m_subscribedTo hd)))
               <$> (handlers (heap s) !! h).
Proof.
  intros Hbody. revert s. induction l as [|h0 l IH]; intros s Hlive.
  - exists (handlers (heap s)). split.
    + simpl. unfold ret. by destruct s as [[??]?].
    + intros h. destruct (handlers (heap s) !! h) as [[f v]|]; done.
  - destruct (Hlive h0) as [hd0 Hh0]; [left|].
    simpl. rewrite (bind_Normal _ _ _ _ _ (Hbody _ _ _ Hh0)).
    edestruct (IH (mkState (mkHeap
                   (<[h0 := mkHandler (m_function hd0) (g (m_subscribedTo hd0))]>
                      (handlers (heap s)))
                   (events (heap s))) (world s))) as (H' & Hrun & HH').
    { intros h Hh. simpl. rewrite lookup_insert_is_Some.
      destruct (decide (h0 = h)); [by left|right].
      split; [done|]. apply Hlive. by right. }
    exists H'. split; [exact Hrun|].
    intros h. rewrite HH'. cbn [handlers heap]. rewrite occurrences_cons.
    destruct (decide (h0 = h)) as [->|Hne].
    + rewrite lookup_insert_eq, Hh0.
      change (1 + occurrences h l) with (S (occurrences h l)).
      cbn [fmap option_fmap option_map m_subscribedTo m_function].
      by rewrite Nat.iter_succ_r.
    + by rewrite lookup_insert_ne.
Qed.

Lemma iter_push_back x n v :
  Nat.iter n (λ v, push_back v x) v = v ++ replicate n x.
Proof.
  revert v. induction n as [|n IH]; intros v.
  - simpl. by rewrite app_nil_r.
  - rewrite Nat.iter_succ_r, IH. unfold push_back.
    by rewrite <- app_assoc.
Qed.

Local Ltac step H := rewrite (bind_Normal _ _ _ _ _ H).

Lemma strip_events h l s :
  (∀ e, e ∈ l → is_Some (events (heap s) !! e)) →
  ∃ E', for_each l (λ e, unsubscribeConstHandler e h) s =
        Normal tt (mkState (mkHeap (handlers (heap s)) E') (world s)) ∧
        ∀ e, E' !! e =
             (λ ev, mkEvent (Nat.iter (occurrences e l) (remove_first h)
                               (m_handler ev)))
               <$> (events (heap s) !! e).
Proof.
  apply (for_each_events (remove_first h)).
  intros e s' ev He. by apply unsubscribeConstHandler_live.
Qed.

Lemma append_events h l s :
  (∀ e, e ∈ l → is_Some (events (heap s) !! e)) →
  ∃ E', for_each l (λ e, subscribeConstHandler e h) s =
        Normal tt (mkState (mkHeap (handlers (heap s)) E') (world s)) ∧
        ∀ e, E' !! e =
             (λ ev, mkEvent (m_handler ev ++ replicate (occurrences e l) h))
               <$> (events (heap s) !! e).
Proof.
  intros Hlive.
  destruct (for_each_events (λ v, push_back v h)
              (λ e, subscribeConstHandler e h) l s) as (E' & Hrun & HE');
    [|done|].
  { intros e s' ev He. by apply subscribeConstHandler_live. }
  exists E'. split; [done|]. intros e. rewrite HE'.
  destruct (events (heap s) !! e); simpl; [|done].
  by rewrite iter_push_back.
Qed.

Lemma strip_handlers e l s :
  (∀ h, h ∈ l → is_Some (handlers (heap s) !! h)) →
  ∃ H', for_each l (λ h, removeEvent h e) s =
        Normal tt (mkState (mkHeap H' (events (heap s))) (world s)) ∧
        ∀ h, H' !! h =
             (λ hd, mkHandler (m_function hd)
                      (Nat.iter (occurrences h l) (remove_first e)
                         (m_subscribedTo hd)))
               <$> (handlers (heap s) !! h).
Proof.
  apply (for_each_handlers (remove_first e)).
  intros h s' hd Hh. by apply removeEvent_live.
Qed.

Lemma append_handlers e l s :
  (∀ h, h ∈ l → is_Some (handlers (heap s) !! h)) →
  ∃ H', for_each l (λ h, addEvent h e) s =
        Normal tt (mkState (mkHeap H' (events (heap s))) (world s)) ∧
        ∀ h, H' !! h =
             (λ hd, mkHandler (m_function hd)
                      (m_subscribedTo hd ++ replicate (occurrences h l) e))
               <$> (handlers (heap s) !! h).
Proof.
  intros Hlive.
  destruct (for_each_handlers (λ v, push_back v e)
              (λ h, addEvent h e) l s) as (H' & Hrun & HH');
    [|done|].
  { intros h s' hd Hh. by apply addEvent_live. }
  exists H'. split; [done|]. intros h. rewrite HH'.
  destruct (handlers (heap s) !! h); simpl; [|done].
  by rewrite iter_push_back.
Qed.

(** *** The public operations on live receivers *)

Lemma Event_subscribe_live s e ev h hd :
  events (heap s) !! e = Some ev →
  handlers (heap s) !! h = Some hd →
  Event_subscribe e h s =
  Normal tt
    (mkState (mkHeap (<[h := mkHandler (m_function hd)
                               (m_subscribedTo hd ++ [e])]>
                        (handlers (heap s)))
                     (<[e := mkEvent (m_handler ev ++ [h])]>
                        (events (heap s))))
             (world s)).
Proof.
  intros He Hh. unfold Event_subscribe.
  step (subscribeConstHandler_live _ _ _ h He).
  by rewrite (addEvent_live _ _ hd).
Qed.

Lemma Event_unsubscribe_absent s e ev h :
  events (heap s) !! e = Some ev →
  h ∉ m_handler ev →
  Event_unsubscribe e h s = Normal tt s.
Proof.
  intros He Hn. unfold Event_unsubscribe.
  step (get_handler_live _ _ _ He).
  apply find_end in Hn. by rewrite decide_True.
Qed.

Lemma Event_unsubscribe_present s e ev h hd :
  events (heap s) !! e = Some ev →
  h ∈ m_handler ev →
  handlers (heap s) !! h = Some hd →
  Event_unsubscribe e h s =
  Normal tt
    (mkState (mkHeap (<[h := mkHandler (m_function hd)
                               (remove_first e (m_subscribedTo hd))]>
                        (handlers (heap s)))
                     (<[e := mkEvent (remove_first h (m_handler ev))]>
                        (events (heap s))))
             (world s)).
Proof.
  intros He Hin Hh. unfold Event_unsubscribe.
  step (get_handler_live _ _ _ He).
  rewrite decide_False by (by rewrite find_end; intros ?).
  rewrite (find_lookup _ _ Hin).
  step (removeEvent_live _ _ _ e Hh).
  match goal with |- bind _ _ ?s1 = _ =>
    assert (events (heap s1) !! e = Some ev) as He1 by done end.
  step (get_handler_live _ _ _ He1).
  rewrite (set_handler_live _ _ _ _ He1). by rewrite erase_find.
Qed.

Lemma Handler_reset_live s this f v :
  handlers (heap s) !! this = Some (mkHandler f v) →
  (∀ e, e ∈ v → is_Some (events (heap s) !! e)) →
  ∃ E', Handler_reset this s =
        Normal tt (mkState (mkHeap (<[this := mkHandler f []]>
                                      (handlers (heap s))) E')
                           (world s)) ∧
        ∀ e, E' !! e =
             (λ ev, mkEvent (Nat.iter (occurrences e v) (remove_first this)
                               (m_handler ev)))
               <$> (events (heap s) !! e).
Proof.
  intros Hh Hlive. unfold Handler_reset.
  step (get_subscribedTo_live _ _ _ Hh). cbn [m_subscribedTo].
  destruct (strip_events this v s Hlive) as (E' & Hrun & HE').
  step Hrun. exists E'. split; [|done].
  by rewrite (set_subscribedTo_live _ _ (mkHandler f v)).
Qed.

Lemma Event_reset_live s this v :
  events (heap s) !! this = Some (mkEvent v) →
  (∀ h, h ∈ v → is_Some (handlers (heap s) !! h)) →
  ∃ H', Event_reset this s =
        Normal tt (mkState (mkHeap H' (<[this := mkEvent []]>
                                         (events (heap s))))
                           (world s)) ∧
        ∀ h, H' !! h =
             (λ hd, mkHandler (m_function hd)
                      (Nat.iter (occurrences h v) (remove_first this)
                         (m_subscribedTo hd)))
               <$> (handlers (heap s) !! h).
Proof.
  intros He Hlive. unfold Event_reset.
  step (get_handler_live _ _ _ He). cbn [m_handler].
  destruct (strip_handlers this v s Hlive) as (H' & Hrun & HH').
  step Hrun. exists H'. split; [|done].
  by rewrite (set_handler_live _ _ (mkEvent v)).
Qed.

Lemma swap_subscribedTo_live s this other f1 v1 f2 v2 :
  handlers (heap s) !! this = Some (mkHandler f1 v1) →
  handlers (heap s) !! other = Some (mkHandler f2 v2) →
  ∃ H', swap_subscribedTo this other s =
        Normal tt (mkState (mkHeap H' (events (heap s))) (world s)) ∧
        H' !! this = Some (mkHandler f1 v2) ∧
        H' !! other = Some (mkHandler f2 v1) ∧
        ∀ h, h ≠ this → h ≠ other → H' !! h = handlers (heap s) !! h.
Proof.
  intros Ht Ho. unfold swap_subscribedTo.
  step (get_subscribedTo_live _ _ _ Ht).
  step (get_subscribedTo_live _ _ _ Ho).
  step (set_subscribedTo_live _ _ _ v2 Ht). cbn [m_function m_subscribedTo].
  destruct (decide (this = other)) as [->|Hne].
  - assert (f1 = f2 ∧ v1 = v2) as [-> ->] by (split; congruence).
    rewrite (set_subscribedTo_live _ _ (mkHandler f2 v2))
      by (cbn; by rewrite lookup_insert_eq).
    eexists. split; [done|]. cbn [handlers heap m_function].
    rewrite lookup_insert_eq. split_and!; [done..|].
    intros h Hh _. by rewrite !lookup_insert_ne.
  - rewrite (set_subscribedTo_live _ _ (mkHandler f2 v2))
      by (cbn; by rewrite lookup_insert_ne).
    eexists. split; [done|]. cbn [handlers heap m_function].
    rewrite lookup_insert_eq, lookup_insert_ne, lookup_insert_eq by done.
    split_and!; [done..|].
    intros h Hh Hh'. by rewrite !lookup_insert_ne.
Qed.

Lemma swap_function_live s this other f1 v1 f2 v2 :
  handlers (heap s) !! this = Some (mkHandler f1 v1) →
  handlers (heap s) !! other = Some (mkHandler f2 v2) →
  ∃ H', swap_function this other s =
        Normal tt (mkState (mkHeap H' (events (heap s))) (world s)) ∧
        H' !! this = Some (mkHandler f2 v1) ∧
        H' !! other = Some (mkHandler f1 v2) ∧
        ∀ h, h ≠ this → h ≠ other → H' !! h = handlers (heap s) !! h.
Proof.
  intros Ht Ho. unfold swap_function.
  step (get_function_live _ _ _ Ht).
  step (get_function_live _ _ _ Ho).
  step (set_function_live _ _ _ f2 Ht). cbn [m_function m_subscribedTo].
  destruct (decide (this = other)) as [->|Hne].
  - assert (f1 = f2 ∧ v1 = v2) as [-> ->] by (split; congruence).
    rewrite (set_function_live _ _ (mkHandler f2 v2))
      by (cbn; by rewrite lookup_insert_eq).
    eexists. split; [done|]. cbn [handlers heap m_subscribedTo].
    rewrite lookup_insert_eq. split_and!; [done..|].
    intros h Hh _. by rewrite !lookup_insert_ne.
  - rewrite (set_function_live _ _ (mkHandler f2 v2))
      by (cbn; by rewrite lookup_insert_ne).
    eexists. split; [done|]. cbn [handlers heap m_subscribedTo].
    rewrite lookup_insert_eq, lookup_insert_ne, lookup_insert_eq by done.
    split_and!; [done..|].
    intros h Hh Hh'. by rewrite !lookup_insert_ne.
Qed.

Lemma swap_handler_live s this other v1 v2 :
  events (heap s) !! this = Some (mkEvent v1) →
  events (heap s) !! other = Some (mkEvent v2) →
  ∃ E', swap_handler this other s =
        Normal tt (mkState (mkHeap (handlers (heap s)) E') (world s)) ∧
        E' !! this = Some (mkEvent v2) ∧
        E' !! other = Some (mkEvent v1) ∧
        ∀ e, e ≠ this → e ≠ other → E' !! e = events (heap s) !! e.
Proof.
  intros Ht Ho. unfold swap_handler.
  step (get_handler_live _ _ _ Ht).
  step (get_handler_live _ _ _ Ho).
  step (set_handler_live _ _ _ v2 Ht). cbn [m_handler].
  destruct (decide (this = other)) as [->|Hne].
  - assert (v1 = v2) as -> by congruence.
    rewrite (set_handler_live _ _ (mkEvent v2))
      by (cbn; by rewrite lookup_insert_eq).
    eexists. split; [done|]. cbn [events heap].
    rewrite lookup_insert_eq. split_and!; [done..|].
    intros e He _. by rewrite !lookup_insert_ne.
  - rewrite (set_handler_live _ _ (mkEvent v2))
      by (cbn; by rewrite lookup_insert_ne).
    eexists. split; [done|]. cbn [events heap].
    rewrite lookup_insert_eq, lookup_insert_ne, lookup_insert_eq by done.
    split_and!; [done..|].
    intros e He He'. by rewrite !lookup_insert_ne.
Qed.

(** [Handler::swap] on two live handlers, equal or not: every event first
    loses one entry of [this] per entry of [this]'s old vector and one of
    [other] per entry of [other]'s, and then receives at its end one
    entry of [this] per entry of [this]'s new vector, followed by one of
    [other] per entry of [other]'s new vector. *)
Lemma Handler_swap_live s this other f1 v1 f2 v2 :
  handlers (heap s) !! this = Some (mkHandler f1 v1) →
  handlers (heap s) !! other = Some (mkHandler f2 v2) →
  (∀ e, e ∈ v1 ∨ e ∈ v2 → is_Some (events (heap s) !! e)) →
  ∃ H' E',
    Handler_swap this other s =
    Normal tt (mkState (mkHeap H' E') (world s)) ∧
    H' !! this = Some (mkHandler f2 v2) ∧
    H' !! other = Some (mkHandler f1 v1) ∧
    (∀ h, h ≠ this → h ≠ other → H' !! h = handlers (heap s) !! h) ∧
    ∀ e, E' !! e =
         (λ ev, mkEvent
                  ((Nat.iter (occurrences e v2) (remove_first other)
                      (Nat.iter (occurrences e v1) (remove_first this)
                         (m_handler ev))
                    ++ replicate (occurrences e v2) this)
                    ++ replicate (occurrences e v1) other))
           <$> (events (heap s) !! e).
Proof.
  intros Ht Ho Hlive. unfold Handler_swap.
  step (get_subscribedTo_live _ _ _ Ht). cbn [m_subscribedTo].
  destruct (strip_events this v1 s) as (E1 & Hrun1 & HE1); [by auto|].
  step Hrun1.
  set (s1 := mkState (mkHeap (handlers (heap s)) E1) (world s)).
  assert (∀ e, is_Some (E1 !! e) ↔ is_Some (events (heap s) !! e)) as Hd1.
  { intros e. by rewrite HE1, fmap_is_Some. }
  step (get_subscribedTo_live s1 _ _ Ho). cbn [m_subscribedTo].
  destruct (strip_events other v2 s1) as (E2 & Hrun2 & HE2).
  { intros e He. apply Hd1. auto. }
  step Hrun2. cbn [handlers heap world events s1] in *.
  set (s2 := mkState (mkHeap (handlers (heap s)) E2) (world s)).
  assert (∀ e, is_Some (E2 !! e) ↔ is_Some (events (heap s) !! e)) as Hd2.
  { intros e. by rewrite HE2, fmap_is_Some. }
  destruct (swap_subscribedTo_live s2 this other f1 v1 f2 v2 Ht Ho)
    as (H3 & Hrun3 & Ht3 & Ho3 & Hf3).
  step Hrun3. cbn [handlers heap world events s2] in *.
  set (s3 := mkState (mkHeap H3 E2) (world s)).
  destruct (swap_function_live s3 this other f1 v2 f2 v1 Ht3 Ho3)
    as (H4 & Hrun4 & Ht4 & Ho4 & Hf4).
  step Hrun4. cbn [handlers heap world events s3] in *.
  set (s4 := mkState (mkHeap H4 E2) (world s)).
  step (get_subscribedTo_live s4 _ _ Ht4). cbn [m_subscribedTo].
  destruct (append_events this v2 s4) as (E5 & Hrun5 & HE5).
  { intros e He. apply Hd2. auto. }
  step Hrun5. cbn [handlers heap world events s4] in *.
  set (s5 := mkState (mkHeap H4 E5) (world s)).
  assert (∀ e, is_Some (E5 !! e) ↔ is_Some (events (heap s) !! e)) as Hd5.
  { intros e. by rewrite HE5, fmap_is_Some. }
  step (get_subscribedTo_live s5 _ _ Ho4). cbn [m_subscribedTo].
  destruct (append_events other v1 s5) as (E6 & Hrun6 & HE6).
  { intros e He. apply Hd5. auto. }
  rewrite Hrun6. cbn [handlers heap world events s5] in *.
  exists H4, E6. split_and!; [done..| |].
  - intros h Hh Hh'. rewrite Hf4, Hf3; done.
  - intros e. rewrite HE6, HE5, HE2, HE1.
    by destruct (events (heap s) !! e).
Qed.

(** [Event::swap] on two live events, equal or not. *)
Lemma Event_swap_live s this other v1 v2 :
  events (heap s) !! this = Some (mkEvent v1) →
  events (heap s) !! other = Some (mkEvent v2) →
  (∀ h, h ∈ v1 ∨ h ∈ v2 → is_Some (handlers (heap s) !! h)) →
  ∃ H' E',
    Event_swap this other s =
    Normal tt (mkState (mkHeap H' E') (world s)) ∧
    E' !! this = Some (mkEvent v2) ∧
    E' !! other = Some (mkEvent v1) ∧
    (∀ e, e ≠ this → e ≠ other → E' !! e = events (heap s) !! e) ∧
    ∀ h, H' !! h =
         (λ hd, mkHandler (m_function hd)
                  ((Nat.iter (occurrences h v2) (remove_first other)
                      (Nat.iter (occurrences h v1) (remove_first this)
                         (m_subscribedTo hd))
                    ++ replicate (occurrences h v2) this)
                    ++ replicate (occurrences h v1) other))
           <$> (handlers (heap s) !! h).
Proof.
  intros Ht Ho Hlive. unfold Event_swap.
  step (get_handler_live _ _ _ Ht). cbn [m_handler].
  destruct (strip_handlers this v1 s) as (H1 & Hrun1 & HH1); [by auto|].
  step Hrun1.
  set (s1 := mkState (mkHeap H1 (events (heap s))) (world s)).
  assert (∀ h, is_Some (H1 !! h) ↔ is_Some (handlers (heap s) !! h)) as Hd1.
  { intros h. by rewrite HH1, fmap_is_Some. }
  step (get_handler_live s1 _ _ Ho). cbn [m_handler].
  destruct (strip_handlers other v2 s1) as (H2 & Hrun2 & HH2).
  { intros h Hh. apply Hd1. auto. }
  step Hrun2. cbn [handlers heap world events s1] in *.
  set (s2 := mkState (mkHeap H2 (events (heap s))) (world s)).
  assert (∀ h, is_Some (H2 !! h) ↔ is_Some (handlers (heap s) !! h)) as Hd2.
  { intros h. by rewrite HH2, fmap_is_Some. }
  destruct (swap_handler_live s2 this other v1 v2 Ht Ho)
    as (E3 & Hrun3 & Ht3 & Ho3 & Hf3).
  step Hrun3. cbn [handlers heap world events s2] in *.
  set (s3 := mkState (mkHeap H2 E3) (world s)).
  step (get_handler_live s3 _ _ Ht3). cbn [m_handler].
  destruct (append_handlers this v2 s3) as (H4 & Hrun4 & HH4).
  { intros h Hh. apply Hd2. auto. }
  step Hrun4. cbn [handlers heap world events s3] in *.
  set (s4 := mkState (mkHeap H4 E3) (world s)).
  assert (∀ h, is_Some (H4 !! h) ↔ is_Some (handlers (heap s) !! h)) as Hd4.
  { intros h. by rewrite HH4, fmap_is_Some. }
  step (get_handler_live s4 _ _ Ho3). cbn [m_handler].
  destruct (append_handlers other v1 s4) as (H5 & Hrun5 & HH5).
  { intros h Hh. apply Hd4. auto. }
  rewrite Hrun5. cbn [handlers heap world events s4] in *.
  exists H5, E3. split_and!; [done..|].
  intros h. rewrite HH5, HH4, HH2, HH1.
  by destruct (handlers (heap s) !! h).
Qed.

(** ** The mirrored-subscription invariant *)

Lemma subscribers_lookup σ e ev :
  events σ !! e = Some ev → subscribers σ e = m_handler ev.
Proof. unfold subscribers. by intros ->. Qed.

Lemma subscriptions_lookup σ h hd :
  handlers σ !! h = Some hd → subscriptions σ h = m_subscribedTo hd.
Proof. unfold subscriptions. by intros ->. Qed.

Lemma subscribers_live σ e h : h ∈ subscribers σ e → is_Some (events σ !! e).
Proof.
  unfold subscribers. destruct (events σ !! e); [by eauto|].
  by intros ?%elem_of_nil.
Qed.

Lemma subscriptions_live σ h e :
  e ∈ subscriptions σ h → is_Some (handlers σ !! h).
Proof.
  unfold subscriptions. destruct (handlers σ !! h); [by eauto|].
  by intros ?%elem_of_nil.
Qed.

Lemma mirrored_elem σ h e :
  mirrored σ → h ∈ subscribers σ e ↔ e ∈ subscriptions σ h.
Proof. intros Hm. by rewrite <- !occurrences_pos, (Hm h e). Qed.

(** Under the invariant no list holds a dangling pointer. *)
Lemma mirrored_event_live σ h hd e :
  mirrored σ → handlers σ !! h = Some hd → e ∈ m_subscribedTo hd →
  is_Some (events σ !! e).
Proof.
  intros Hm Hh He. apply (subscribers_live σ e h), mirrored_elem; [done|].
  by rewrite (subscriptions_lookup _ _ _ Hh).
Qed.

Lemma mirrored_handler_live σ e ev h :
  mirrored σ → events σ !! e = Some ev → h ∈ m_handler ev →
  is_Some (handlers σ !! h).
Proof.
  intros Hm He Hh. apply (subscriptions_live σ h e), mirrored_elem; [done|].
  by rewrite (subscribers_lookup _ _ _ He).
Qed.

Lemma mirrored_strip_events σ h hd e ev :
  mirrored σ → handlers σ !! h = Some hd → events σ !! e = Some ev →
  Nat.iter (occurrences e (m_subscribedTo hd)) (remove_first h) (m_handler ev)
  = remove_all h (m_handler ev).
Proof.
  intros Hm Hh He. apply iter_remove_first.
  rewrite <- (subscribers_lookup _ _ _ He), (Hm h e).
  by rewrite (subscriptions_lookup _ _ _ Hh).
Qed.

Lemma mirrored_strip_handlers σ e ev h hd :
  mirrored σ → events σ !! e = Some ev → handlers σ !! h = Some hd →
  Nat.iter (occurrences h (m_handler ev)) (remove_first e) (m_subscribedTo hd)
  = remove_all e (m_subscribedTo hd).
Proof.
  intros Hm He Hh. apply iter_remove_first.
  rewrite <- (subscriptions_lookup _ _ _ Hh), <- (Hm h e).
  by rewrite (subscribers_lookup _ _ _ He).
Qed.

Lemma known_handlers_live σ h :
  is_Some (handlers σ !! h) → h ∈ known_handlers σ.
Proof.
  intros [hd Hh]. unfold known_handlers. apply elem_of_app. left.
  apply list_elem_of_fmap. exists (h, hd). split; [done|].
  by apply elem_of_map_to_list.
Qed.

Lemma known_handlers_subscriber σ e h :
  h ∈ subscribers σ e → h ∈ known_handlers σ.
Proof.
  intros Hin. destruct (subscribers_live _ _ _ Hin) as [ev He].
  rewrite (subscribers_lookup _ _ _ He) in Hin.
  unfold known_handlers. apply elem_of_app. right.
  apply list_elem_of_In, in_concat. exists (m_handler ev).
  split; [|by apply list_elem_of_In].
  apply list_elem_of_In, list_elem_of_fmap. exists ev. split; [done|].
  apply list_elem_of_fmap. exists (e, ev). split; [done|].
  by apply elem_of_map_to_list.
Qed.

Lemma known_events_live σ e :
  is_Some (events σ !! e) → e ∈ known_events σ.
Proof.
  intros [ev He]. unfold known_events. apply elem_of_app. left.
  apply list_elem_of_fmap. exists (e, ev). split; [done|].
  by apply elem_of_map_to_list.
Qed.

Lemma known_events_subscription σ h e :
  e ∈ subscriptions σ h → e ∈ known_events σ.
Proof.
  intros Hin. destruct (subscriptions_live _ _ _ Hin) as [hd Hh].
  rewrite (subscriptions_lookup _ _ _ Hh) in Hin.
  unfold known_events. apply elem_of_app. right.
  apply list_elem_of_In, in_concat. exists (m_subscribedTo hd).
  split; [|by apply list_elem_of_In].
  apply list_elem_of_In, list_elem_of_fmap. exists hd. split; [done|].
  apply list_elem_of_fmap. exists (h, hd). split; [done|].
  by apply elem_of_map_to_list.
Qed.

Lemma mirroredb_sound σ : mirroredb σ = true → mirrored σ.
Proof.
  unfold mirroredb. rewrite forallb_forall. intros Hall h e.
  destruct (decide (h ∈ known_handlers σ)) as [Hh|Hh];
    [destruct (decide (e ∈ known_events σ)) as [He|He]|].
  - apply list_elem_of_In, Hall in Hh. rewrite forallb_forall in Hh.
    apply list_elem_of_In, Hh in He. by apply bool_decide_eq_true in He.
  - transitivity 0; [|symmetry]; apply occurrences_zero.
    + intros Hin. apply He, known_events_live. by eapply subscribers_live.
    + intros Hin. apply He. by eapply known_events_subscription.
  - transitivity 0; [|symmetry]; apply occurrences_zero.
    + intros Hin. apply Hh. by eapply known_handlers_subscriber.
    + intros Hin. apply Hh, known_handlers_live.
      by eapply subscriptions_live.
Qed.

(** ** Unsubscription *)

(** C3. [Event::unsubscribe] removes the first entry equal to the handler
    from the event's [m_handler] and the first entry equal to the event
    from that handler's [m_subscribedTo], and nothing else; on a handler
    that is not subscribed it returns normally and leaves the whole
    state as it was, which is also what a repeated unsubscription does. *)
Theorem Event_unsubscribe_removes_first s e v h :
  events (heap s) !! e = Some (mkEvent v) →
  (h ∈ v → is_Some (handlers (heap s) !! h)) →
  (h ∉ v → Event_unsubscribe e h s = Normal tt s) ∧
  (h ∈ v →
   ∃ f subs,
     handlers (heap s) !! h = Some (mkHandler f subs) ∧
     let s' :=
       mkState (mkHeap (<[h := mkHandler f (remove_first e subs)]>
                          (handlers (heap s)))
                       (<[e := mkEvent (remove_first h v)]>
                          (events (heap s))))
               (world s) in
     Event_unsubscribe e h s = Normal tt s' ∧
     (h ∉ remove_first h v → Event_unsubscribe e h s' = Normal tt s')).
Proof.
  intros He Hlive. split.
  - intros Hn. by apply (Event_unsubscribe_absent _ _ (mkEvent v)).
  - intros Hin. destruct (Hlive Hin) as [[f subs] Hh].
    exists f, subs. split; [done|]. split.
    + by rewrite (Event_unsubscribe_present _ _ (mkEvent v) _ _ He Hin Hh).
    + intros Hn.
      apply (Event_unsubscribe_absent _ _ (mkEvent (remove_first h v)));
        [|done].
      cbn. by rewrite lookup_insert_eq.
Qed.

(** ** Reset *)

Lemma events_fmap_id (E E' : gmap nat Event) (g : nat → list nat → list nat) :
  (∀ e, E' !! e = (λ ev, mkEvent (g e (m_handler ev))) <$> E !! e) →
  (∀ e ev, E !! e = Some ev → g e (m_handler ev) = m_handler ev) →
  E' = E.
Proof.
  intros HE' Hg. apply map_eq. intros e. rewrite HE'.
  destruct (E !! e) as [[v]|] eqn:He; [|done].
  simpl. do 2 f_equal. exact (Hg e (mkEvent v) He).
Qed.

Lemma handlers_fmap_id (H H' : gmap nat Handler)
    (g : nat → list nat → list nat) :
  (∀ h, H' !! h =
        (λ hd, mkHandler (m_function hd) (g h (m_subscribedTo hd)))
          <$> H !! h) →
  (∀ h hd, H !! h = Some hd → g h (m_subscribedTo hd) = m_subscribedTo hd) →
  H' = H.
Proof.
  intros HH' Hg. apply map_eq. intros h. rewrite HH'.
  destruct (H !! h) as [[f v]|] eqn:Hh; [|done].
  simpl. do 2 f_equal. exact (Hg h (mkHandler f v) Hh).
Qed.

Lemma Handler_reset_mirrored s this f v :
  mirrored (heap s) →
  handlers (heap s) !! this = Some (mkHandler f v) →
  ∃ E', Handler_reset this s =
        Normal tt (mkState (mkHeap (<[this := mkHandler f []]>
                                      (handlers (heap s))) E')
                           (world s)) ∧
        ∀ e, E' !! e =
             (λ ev, mkEvent (remove_all this (m_handler ev)))
               <$> (events (heap s) !! e).
Proof.
  intros Hm Hh.
  destruct (Handler_reset_live s this f v Hh) as (E' & Hrun & HE').
  { intros e He. by eapply mirrored_event_live. }
  exists E'. split; [done|]. intros e. rewrite HE'.
  destruct (events (heap s) !! e) as [ev|] eqn:He; [|done]. simpl.
  do 2 f_equal.
  exact (mirrored_strip_events _ _ (mkHandler f v) _ _ Hm Hh He).
Qed.

Lemma Event_reset_mirrored s this v :
  mirrored (heap s) →
  events (heap s) !! this = Some (mkEvent v) →
  ∃ H', Event_reset this s =
        Normal tt (mkState (mkHeap H' (<[this := mkEvent []]>
                                         (events (heap s))))
                           (world s)) ∧
        ∀ h, H' !! h =
             (λ hd, mkHandler (m_function hd)
                      (remove_all this (m_subscribedTo hd)))
               <$> (handlers (heap s) !! h).
Proof.
  intros Hm He.
  destruct (Event_reset_live s this v He) as (H' & Hrun & HH').
  { intros h Hh. by eapply (mirrored_handler_live _ _ (mkEvent v)). }
  exists H'. split; [done|]. intros h. rewrite HH'.
  destruct (handlers (heap s) !! h) as [hd|] eqn:Hh; [|done]. simpl.
  f_equal. f_equal.
  exact (mirrored_strip_handlers _ _ (mkEvent v) _ _ Hm He Hh).
Qed.

(** C5. In a store that satisfies the invariant, [Handler::reset] empties
    the receiver's [m_subscribedTo] and removes every entry of the
    receiver from every event, and [Event::reset] empties the receiver's
    [m_handler] and removes every entry of the receiver from every
    handler; nothing else changes.  A second reset, and a reset of an
    object without relationships, leave the state as it is. *)
Theorem reset_severs_both_sides s :
  mirrored (heap s) →
  (∀ h f v, handlers (heap s) !! h = Some (mkHandler f v) →
     ∃ s', Handler_reset h s = Normal tt s' ∧
           world s' = world s ∧
           handlers (heap s') = <[h := mkHandler f []]> (handlers (heap s)) ∧
           (∀ e, events (heap s') !! e =
                 (λ ev, mkEvent (remove_all h (m_handler ev)))
                   <$> events (heap s) !! e) ∧
           Handler_reset h s' = Normal tt s' ∧
           (v = [] → s' = s)) ∧
  (∀ e v, events (heap s) !! e = Some (mkEvent v) →
     ∃ s', Event_reset e s = Normal tt s' ∧
           world s' = world s ∧
           events (heap s') = <[e := mkEvent []]> (events (heap s)) ∧
           (∀ h, handlers (heap s') !! h =
                 (λ hd, mkHandler (m_function hd)
                          (remove_all e (m_subscribedTo hd)))
                   <$> handlers (heap s) !! h) ∧
           Event_reset e s' = Normal tt s' ∧
           (v = [] → s' = s)).
Proof.
  intros Hm. split.
  - intros h f v Hh.
    destruct (Handler_reset_mirrored s h f v Hm Hh) as (E' & Hrun & HE').
    eexists. split; [exact Hrun|]. cbn [heap world handlers events].
    split_and!; [done..| |].
    + edestruct (Handler_reset_live
                   (mkState (mkHeap (<[h := mkHandler f []]>
                                       (handlers (heap s))) E') (world s))
                   h f []) as (E'' & Hrun' & HE'').
      { cbn. by rewrite lookup_insert_eq. }
      { by intros e ?%elem_of_nil. }
      rewrite Hrun'. cbn [heap world handlers events].
      rewrite insert_insert_eq. do 3 f_equal.
      apply (events_fmap_id _ _ (λ _ v, v)); [|done].
      intros e. rewrite HE''. cbn. by destruct (E' !! e) as [[?]|].
    + intros ->. destruct s as [[H E] w]. cbn in *.
      rewrite insert_id by done. do 2 f_equal.
      apply (events_fmap_id _ _ (λ _, remove_all h)); [done|].
      intros e ev He. apply remove_all_absent, occurrences_zero.
      specialize (Hm h e). unfold subscribers, subscriptions in Hm.
      cbn in Hm. by rewrite He, Hh in Hm.
  - intros e v He.
    destruct (Event_reset_mirrored s e v Hm He) as (H' & Hrun & HH').
    eexists. split; [exact Hrun|]. cbn [heap world handlers events].
    split_and!; [done..| |].
    + edestruct (Event_reset_live
                   (mkState (mkHeap H' (<[e := mkEvent []]>
                                          (events (heap s)))) (world s))
                   e []) as (H'' & Hrun' & HH'').
      { cbn. by rewrite lookup_insert_eq. }
      { by intros h ?%elem_of_nil. }
      rewrite Hrun'. cbn [heap world handlers events].
      rewrite insert_insert_eq. do 2 f_equal. f_equal.
      apply (handlers_fmap_id _ _ (λ _ v, v)); [|done].
      intros h. rewrite HH''. cbn. by destruct (H' !! h) as [[??]|].
    + intros ->. destruct s as [[H E] w]. cbn in *.
      rewrite insert_id by done. do 2 f_equal.
      apply (handlers_fmap_id _ _ (λ _, remove_all e)); [done|].
      intros h hd Hh. apply remove_all_absent, occurrences_zero.
      specialize (Hm h e). unfold subscribers, subscriptions in Hm.
      cbn in Hm. by rewrite He, Hh in Hm.
Qed.

(** ** Invocation *)

Lemma for_each_app {A} (l1 l2 : list A) (body : A → M unit) s :
  for_each (l1 ++ l2) body s =
  bind (for_each l1 body) (λ _, for_each l2 body) s.
Proof.
  revert s. induction l1 as [|x l1 IH]; intros s; [reflexivity|].
  simpl. unfold bind. destruct (body x s); [|done..].
  by rewrite IH.
Qed.

Lemma Handler_invoke_live σ w h f args :
  has_function σ h f →
  Handler_invoke h args (mkState σ w) =
  pass_outcome σ (fan_out [f] args w).
Proof.
  intros [v Hh]. unfold Handler_invoke.
  step (get_function_live (mkState σ w) _ _ Hh).
  unfold call. destruct f as [g|]; [|done].
  simpl. by destruct (g args w).
Qed.

Lemma for_each_invoke σ l fs args :
  Forall2 (has_function σ) l fs →
  ∀ w, for_each l (λ h, Handler_invoke h args) (mkState σ w) =
       pass_outcome σ (fan_out fs args w).
Proof.
  induction 1 as [|h f l fs Hf _ IH]; intros w; [done|].
  simpl for_each. unfold bind. rewrite (Handler_invoke_live _ _ _ f) by done.
  destruct f as [g|]; [|done]. simpl.
  destruct (g args w) as [w'|x w']; [|done]. apply IH.
Qed.

Lemma Event_invoke_live s e v fs args :
  events (heap s) !! e = Some (mkEvent v) →
  Forall2 (has_function (heap s)) v fs →
  Event_invoke e args s = pass_outcome (heap s) (fan_out fs args (world s)).
Proof.
  intros He Hfs. unfold Event_invoke.
  step (get_handler_live _ _ _ He). destruct s as [σ w].
  by apply for_each_invoke.
Qed.

Lemma fan_out_app (fs1 fs2 : list (@std_function TArgs World UserExn))
    args w w1 :
  fan_out fs1 args w = (None, w1) →
  fan_out (fs1 ++ fs2) args w = fan_out fs2 args w1.
Proof.
  revert w. induction fs1 as [|[g|] fs1 IH]; intros w; simpl.
  - by intros [= ->].
  - destruct (g args w); [apply IH | done].
  - done.
Qed.

(** Invocation never touches the store, however it ends. *)
Lemma for_each_invoke_heap l args s :
  match for_each l (λ h, Handler_invoke h args) s with
  | Normal _ s' | Throws _ s' => heap s' = heap s
  | Undefined => True
  end.
Proof.
  revert s. induction l as [|h l IH]; intros s; [done|].
  simpl. unfold bind at 1. unfold Handler_invoke at 1.
  unfold bind, get_function, bind, load_handler, ret, call.
  destruct (handlers (heap s) !! h) as [[[g|] v]|]; simpl; [|done..].
  destruct (g args (world s)) as [w|x w]; [|done].
  specialize (IH (mkState (heap s) w)).
  by destruct (for_each l _ _).
Qed.

Lemma Event_invoke_heap e args s :
  match Event_invoke e args s with
  | Normal _ s' | Throws _ s' => heap s' = heap s
  | Undefined => True
  end.
Proof.
  unfold Event_invoke, bind at 1, get_handler, bind, load_event, ret.
  destruct (events (heap s) !! e); [|done].
  apply for_each_invoke_heap.
Qed.

Lemma has_function_same_function σ σ' :
  (∀ h, m_function <$> handlers σ' !! h = m_function <$> handlers σ !! h) →
  ∀ h f, has_function σ' h f ↔ has_function σ h f.
Proof.
  intros Hf h f. unfold has_function. specialize (Hf h).
  destruct (handlers σ' !! h) as [[f1 v1]|], (handlers σ !! h) as [[f2 v2]|];
    simplify_eq/=; split; intros [v ?]; simplify_eq; eauto.
Qed.

Lemma resubscribe_live s e v h :
  events (heap s) !! e = Some (mkEvent v) →
  is_Some (handlers (heap s) !! h) →
  ∃ s', bind (Event_unsubscribe e h) (λ _, Event_subscribe e h) s
        = Normal tt s' ∧
        world s' = world s ∧
        events (heap s') !! e = Some (mkEvent (remove_first h v ++ [h])) ∧
        ∀ h', m_function <$> handlers (heap s') !! h' =
              m_function <$> handlers (heap s) !! h'.
Proof.
  intros He [[f subs] Hh]. destruct (decide (h ∈ v)) as [Hin|Hn].
  - step (Event_unsubscribe_present _ _ (mkEvent v) _ _ He Hin Hh).
    erewrite Event_subscribe_live;
      [|cbn; by rewrite lookup_insert_eq..].
    eexists. split; [done|]. cbn. rewrite lookup_insert_eq.
    split_and!; [done..|]. intros h'.
    destruct (decide (h = h')) as [<-|Hne].
    + by rewrite lookup_insert_eq, Hh.
    + by rewrite !lookup_insert_ne.
  - step (Event_unsubscribe_absent _ _ (mkEvent v) _ He Hn).
    rewrite (Event_subscribe_live _ _ _ _ _ He Hh).
    eexists. split; [done|]. cbn. rewrite lookup_insert_eq.
    rewrite remove_first_absent by done.
    split_and!; [done..|]. intros h'.
    destruct (decide (h = h')) as [<-|Hne].
    + by rewrite lookup_insert_eq, Hh.
    + by rewrite !lookup_insert_ne.
Qed.

(** C4. [Event::invoke] runs the reactions of the entries of [m_handler]
    one after the other in the order of the vector, once per entry: its
    outcome is that of the notification pass over the functions of the
    entries.  Unsubscribing a handler and subscribing it again removes
    its first entry and puts a new one at the end of the vector, so the
    handler is then invoked last. *)
Theorem Event_invoke_in_subscription_order s e v fs h args :
  events (heap s) !! e = Some (mkEvent v) →
  Forall2 (has_function (heap s)) v fs →
  is_Some (handlers (heap s) !! h) →
  Event_invoke e args s = pass_outcome (heap s) (fan_out fs args (world s)) ∧
  ∃ s', bind (Event_unsubscribe e h) (λ _, Event_subscribe e h) s
        = Normal tt s' ∧
        world s' = world s ∧
        events (heap s') !! e = Some (mkEvent (remove_first h v ++ [h])) ∧
        ∀ h' f', has_function (heap s') h' f' ↔ has_function (heap s) h' f'.
Proof.
  intros He Hfs Hh. split; [by apply (Event_invoke_live _ _ v)|].
  destruct (resubscribe_live s e v h He Hh) as (s' & Hrun & Hw & He' & Hf).
  exists s'. split_and!; [done..|].
  by apply has_function_same_function.
Qed.

(** C6. [Event::subscribe] on a live event and a live handler returns
    normally and appends one entry on each side.  Subscribing the same
    handler again appends a second entry; the event then runs that
    handler's reaction twice, at the end of the pass; and each
    [unsubscribe] takes away exactly one of the registrations. *)
Theorem Event_subscribe_twice s e v h f subs :
  events (heap s) !! e = Some (mkEvent v) →
  handlers (heap s) !! h = Some (mkHandler f subs) →
  ∃ s1 s2 s3 s4,
    Event_subscribe e h s = Normal tt s1 ∧
    events (heap s1) !! e = Some (mkEvent (v ++ [h])) ∧
    handlers (heap s1) !! h = Some (mkHandler f (subs ++ [e])) ∧
    Event_subscribe e h s1 = Normal tt s2 ∧
    events (heap s2) !! e = Some (mkEvent (v ++ [h; h])) ∧
    handlers (heap s2) !! h = Some (mkHandler f (subs ++ [e; e])) ∧
    (∀ fs args, Forall2 (has_function (heap s)) v fs →
       Event_invoke e args s2 =
       pass_outcome (heap s2) (fan_out (fs ++ [f; f]) args (world s))) ∧
    Event_unsubscribe e h s2 = Normal tt s3 ∧
    occurrences h (subscribers (heap s3) e) = occurrences h v + 1 ∧
    occurrences e (subscriptions (heap s3) h) = occurrences e subs + 1 ∧
    Event_unsubscribe e h s3 = Normal tt s4 ∧
    occurrences h (subscribers (heap s4) e) = occurrences h v ∧
    occurrences e (subscriptions (heap s4) h) = occurrences e subs.
Proof.
  intros He Hh.
  pose proof (Event_subscribe_live s e _ h _ He Hh) as Hs1.
  cbn [m_handler m_function m_subscribedTo] in Hs1.
  match type of Hs1 with _ = Normal tt ?t => set (s1 := t) in * end.
  assert (events (heap s1) !! e = Some (mkEvent (v ++ [h]))) as He1
    by apply lookup_insert_eq.
  assert (handlers (heap s1) !! h = Some (mkHandler f (subs ++ [e]))) as Hh1
    by apply lookup_insert_eq.
  pose proof (Event_subscribe_live s1 e _ h _ He1 Hh1) as Hs2.
  cbn [m_handler m_function m_subscribedTo] in Hs2.
  rewrite <- !app_assoc in Hs2. simpl app in Hs2.
  match type of Hs2 with _ = Normal tt ?t => set (s2 := t) in * end.
  assert (events (heap s2) !! e = Some (mkEvent (v ++ [h; h]))) as He2
    by apply lookup_insert_eq.
  assert (handlers (heap s2) !! h = Some (mkHandler f (subs ++ [e; e]))) as Hh2
    by apply lookup_insert_eq.
  assert (h ∈ v ++ [h; h]) as Hin2
    by (rewrite elem_of_app, !elem_of_cons; auto).
  pose proof (Event_unsubscribe_present s2 e _ h _ He2 Hin2 Hh2) as Hs3.
  cbn [m_handler m_function m_subscribedTo] in Hs3.
  match type of Hs3 with _ = Normal tt ?t => set (s3 := t) in * end.
  assert (events (heap s3) !! e = Some (mkEvent (remove_first h (v ++ [h; h]))))
    as He3 by apply lookup_insert_eq.
  assert (handlers (heap s3) !! h =
          Some (mkHandler f (remove_first e (subs ++ [e; e])))) as Hh3
    by apply lookup_insert_eq.
  assert (occurrences h (remove_first h (v ++ [h; h])) = occurrences h v + 1)
    as Hc3.
  { rewrite occurrences_remove_first_eq, occurrences_app, !occurrences_cons,
      !decide_True by done. rewrite occurrences_nil. lia. }
  assert (occurrences e (remove_first e (subs ++ [e; e]))
          = occurrences e subs + 1) as Hd3.
  { rewrite occurrences_remove_first_eq, occurrences_app, !occurrences_cons,
      !decide_True by done. rewrite occurrences_nil. lia. }
  assert (h ∈ remove_first h (v ++ [h; h])) as Hin3
    by (apply occurrences_pos; lia).
  pose proof (Event_unsubscribe_present s3 e _ h _ He3 Hin3 Hh3) as Hs4.
  cbn [m_handler m_function m_subscribedTo] in Hs4.
  match type of Hs4 with _ = Normal tt ?t => set (s4 := t) in * end.
  exists s1, s2, s3, s4. split_and!; try done.
  - intros fs args Hfs.
    rewrite (Event_invoke_live s2 e (v ++ [h; h]) (fs ++ [f; f])); [done..|].
    apply Forall2_app.
    + eapply Forall2_impl; [exact Hfs|]. intros h' f' [v' Hv'].
      unfold has_function. cbn. destruct (decide (h = h')) as [<-|Hne].
      * rewrite lookup_insert_eq. simplify_eq. eauto.
      * rewrite !lookup_insert_ne by done. eauto.
    + repeat constructor; by eexists.
  - by rewrite (subscribers_lookup _ _ _ He3).
  - by rewrite (subscriptions_lookup _ _ _ Hh3).
  - rewrite (subscribers_lookup (heap s4) e
               (mkEvent (remove_first h (remove_first h (v ++ [h; h])))))
      by apply lookup_insert_eq.
    cbn [m_handler]. rewrite occurrences_remove_first_eq. lia.
  - rewrite (subscriptions_lookup (heap s4) h
               (mkHandler f (remove_first e (remove_first e (subs ++ [e; e])))))
      by apply lookup_insert_eq.
    cbn [m_subscribedTo]. rewrite occurrences_remove_first_eq. lia.
Qed.

(** C7. When the reaction of an entry raises, [Event::invoke] ends with
    that very exception, in the world the raising reaction left: the
    entries before it have run, in order; the entries after it are not
    looked at (they need not even be live).  However an invocation ends,
    it leaves the store, and so every [m_handler] and [m_subscribedTo],
    as it found it. *)
Theorem Event_invoke_propagates_failure s e args pre h post fs g v w1 x w2 :
  events (heap s) !! e = Some (mkEvent (pre ++ h :: post)) →
  Forall2 (has_function (heap s)) pre fs →
  fan_out fs args (world s) = (None, w1) →
  handlers (heap s) !! h = Some (mkHandler (Some g) v) →
  g args w1 = Raises x w2 →
  Event_invoke e args s = Throws (user_exception x) (mkState (heap s) w2) ∧
  ∀ e' args' s0,
    match Event_invoke e' args' s0 with
    | Normal _ s' | Throws _ s' => heap s' = heap s0
    | Undefined => True
    end.
Proof.
  intros He Hpre Hfs Hh Hg. split; [|intros; apply Event_invoke_heap].
  unfold Event_invoke. step (get_handler_live _ _ _ He). cbn [m_handler].
  rewrite for_each_app. destruct s as [σ w]. cbn [heap world] in *.
  pose proof (for_each_invoke σ pre fs args Hpre w) as Hrun.
  rewrite Hfs in Hrun. step Hrun.
  simpl for_each. unfold bind.
  rewrite (Handler_invoke_live σ w1 h (Some g)) by (by exists v).
  simpl. by rewrite Hg.
Qed.

(** ** Swap *)

Lemma Handler_swap_mirrored s this other f1 v1 f2 v2 :
  mirrored (heap s) →
  handlers (heap s) !! this = Some (mkHandler f1 v1) →
  handlers (heap s) !! other = Some (mkHandler f2 v2) →
  ∃ H' E',
    Handler_swap this other s =
    Normal tt (mkState (mkHeap H' E') (world s)) ∧
    H' !! this = Some (mkHandler f2 v2) ∧
    H' !! other = Some (mkHandler f1 v1) ∧
    (∀ h, h ≠ this → h ≠ other → H' !! h = handlers (heap s) !! h) ∧
    ∀ e, E' !! e =
         (λ ev, mkEvent
                  ((remove_all other (remove_all this (m_handler ev))
                    ++ replicate (occurrences e v2) this)
                    ++ replicate (occurrences e v1) other))
           <$> (events (heap s) !! e).
Proof.
  intros Hm Ht Ho.
  destruct (Handler_swap_live s this other f1 v1 f2 v2 Ht Ho)
    as (H' & E' & Hrun & Ht' & Ho' & Hf' & HE').
  { intros e [He|He];
      [apply (mirrored_event_live _ this (mkHandler f1 v1))
      |apply (mirrored_event_live _ other (mkHandler f2 v2))]; done. }
  exists H', E'. split_and!; [done..|].
  intros e. rewrite HE'.
  destruct (events (heap s) !! e) as [ev|] eqn:He; [|done].
  cbn [fmap option_fmap option_map]. do 4 f_equal.
  change v1 with (m_subscribedTo (mkHandler f1 v1)).
  rewrite (mirrored_strip_events _ _ _ _ _ Hm Ht He).
  apply iter_remove_first.
  destruct (decide (other = this)) as [->|Hne].
  - rewrite occurrences_remove_all_eq. lia.
  - rewrite occurrences_remove_all_ne by done.
    rewrite <- (subscribers_lookup _ _ _ He), (Hm other e).
    by rewrite (subscriptions_lookup _ _ _ Ho).
Qed.

Lemma Event_swap_mirrored s this other v1 v2 :
  mirrored (heap s) →
  events (heap s) !! this = Some (mkEvent v1) →
  events (heap s) !! other = Some (mkEvent v2) →
  ∃ H' E',
    Event_swap this other s =
    Normal tt (mkState (mkHeap H' E') (world s)) ∧
    E' !! this = Some (mkEvent v2) ∧
    E' !! other = Some (mkEvent v1) ∧
    (∀ e, e ≠ this → e ≠ other → E' !! e = events (heap s) !! e) ∧
    ∀ h, H' !! h =
         (λ hd, mkHandler (m_function hd)
                  ((remove_all other (remove_all this (m_subscribedTo hd))
                    ++ replicate (occurrences h v2) this)
                    ++ replicate (occurrences h v1) other))
           <$> (handlers (heap s) !! h).
Proof.
  intros Hm Ht Ho.
  destruct (Event_swap_live s this other v1 v2 Ht Ho)
    as (H' & E' & Hrun & Ht' & Ho' & Hf' & HH').
  { intros h [Hh|Hh];
      [apply (mirrored_handler_live _ this (mkEvent v1))
      |apply (mirrored_handler_live _ other (mkEvent v2))]; done. }
  exists H', E'. split_and!; [done..|].
  intros h. rewrite HH'.
  destruct (handlers (heap s) !! h) as [hd|] eqn:Hh; [|done].
  cbn [fmap option_fmap option_map]. do 2 f_equal. do 2 f_equal.
  change v1 with (m_handler (mkEvent v1)).
  rewrite (mirrored_strip_handlers _ _ _ _ _ Hm Ht Hh).
  apply iter_remove_first.
  destruct (decide (other = this)) as [->|Hne].
  - rewrite occurrences_remove_all_eq. lia.
  - rewrite occurrences_remove_all_ne by done.
    rewrite <- (subscriptions_lookup _ _ _ Hh), <- (Hm h other).
    by rewrite (subscribers_lookup _ _ _ Ho).
Qed.

Lemma last_app_replicate (l : list nat) n x :
  0 < n → last (l ++ replicate n x) = Some x.
Proof.
  destruct n as [|n]; [lia|]. intros _.
  by rewrite replicate_S_end, app_assoc, last_snoc.
Qed.

Lemma mirrored_dead_event σ h hd e :
  mirrored σ → handlers σ !! h = Some hd → events σ !! e = None →
  occurrences e (m_subscribedTo hd) = 0.
Proof.
  intros Hm Hh He. rewrite <- (subscriptions_lookup _ _ _ Hh), <- (Hm h e).
  unfold subscribers. by rewrite He.
Qed.

Lemma mirrored_dead_handler σ e ev h :
  mirrored σ → events σ !! e = Some ev → handlers σ !! h = None →
  occurrences h (m_handler ev) = 0.
Proof.
  intros Hm He Hh. rewrite <- (subscribers_lookup _ _ _ He), (Hm h e).
  unfold subscriptions. by rewrite Hh.
Qed.

Lemma Handler_swap_subscribers s this other f1 v1 f2 v2 :
  mirrored (heap s) →
  handlers (heap s) !! this = Some (mkHandler f1 v1) →
  handlers (heap s) !! other = Some (mkHandler f2 v2) →
  ∃ s', Handler_swap this other s = Normal tt s' ∧
        world s' = world s ∧
        handlers (heap s') !! this = Some (mkHandler f2 v2) ∧
        handlers (heap s') !! other = Some (mkHandler f1 v1) ∧
        (∀ h, h ≠ this → h ≠ other →
              handlers (heap s') !! h = handlers (heap s) !! h) ∧
        (∀ e, is_Some (events (heap s') !! e) ↔
              is_Some (events (heap s) !! e)) ∧
        ∀ e, subscribers (heap s') e =
             remove_all other (remove_all this (subscribers (heap s) e))
             ++ replicate (occurrences e v2) this
             ++ replicate (occurrences e v1) other.
Proof.
  intros Hm Ht Ho.
  destruct (Handler_swap_mirrored s this other f1 v1 f2 v2 Hm Ht Ho)
    as (H' & E' & Hrun & Ht' & Ho' & Hf' & HE').
  eexists. split; [exact Hrun|]. cbn [heap world handlers events].
  split_and!; [done..| |].
  - intros e. by rewrite HE', fmap_is_Some.
  - intros e. unfold subscribers. cbn [events]. rewrite HE'.
    destruct (events (heap s) !! e) as [ev|] eqn:He; cbn.
    + by rewrite <- app_assoc.
    + pose proof (mirrored_dead_event _ _ _ _ Hm Ht He) as Hz1.
      pose proof (mirrored_dead_event _ _ _ _ Hm Ho He) as Hz2.
      cbn [m_subscribedTo] in Hz1, Hz2. by rewrite Hz1, Hz2.
Qed.

Lemma Event_swap_subscriptions s this other v1 v2 :
  mirrored (heap s) →
  events (heap s) !! this = Some (mkEvent v1) →
  events (heap s) !! other = Some (mkEvent v2) →
  ∃ s', Event_swap this other s = Normal tt s' ∧
        world s' = world s ∧
        events (heap s') !! this = Some (mkEvent v2) ∧
        events (heap s') !! other = Some (mkEvent v1) ∧
        (∀ e, e ≠ this → e ≠ other →
              events (heap s') !! e = events (heap s) !! e) ∧
        (∀ h, m_function <$> handlers (heap s') !! h =
              m_function <$> handlers (heap s) !! h) ∧
        ∀ h, subscriptions (heap s') h =
             remove_all other (remove_all this (subscriptions (heap s) h))
             ++ replicate (occurrences h v2) this
             ++ replicate (occurrences h v1) other.
Proof.
  intros Hm Ht Ho.
  destruct (Event_swap_mirrored s this other v1 v2 Hm Ht Ho)
    as (H' & E' & Hrun & Ht' & Ho' & Hf' & HH').
  eexists. split; [exact Hrun|]. cbn [heap world handlers events].
  split_and!; [done..| |].
  - intros h. rewrite HH'. by destruct (handlers (heap s) !! h).
  - intros h. unfold subscriptions. cbn [handlers]. rewrite HH'.
    destruct (handlers (heap s) !! h) as [hd|] eqn:Hh; cbn.
    + by rewrite <- app_assoc.
    + pose proof (mirrored_dead_handler _ _ _ _ Hm Ht Hh) as Hz1.
      pose proof (mirrored_dead_handler _ _ _ _ Hm Ho Hh) as Hz2.
      cbn [m_handler] in Hz1, Hz2. by rewrite Hz1, Hz2.
Qed.

(** C10 (as amended). [Handler::swap] of two distinct handlers takes all
    entries of both out of every event and appends new ones: behind the
    entries of the uninvolved handlers, which keep their order, come the
    entries of the receiver (one per event of the vector it received),
    and behind these the entries of the argument.  So the argument is
    last in every event it is subscribed to after the swap, and the
    receiver is last in those it does not share with the argument. *)
Theorem Handler_swap_appends_at_end s this other f1 v1 f2 v2 :
  mirrored (heap s) →
  this ≠ other →
  handlers (heap s) !! this = Some (mkHandler f1 v1) →
  handlers (heap s) !! other = Some (mkHandler f2 v2) →
  ∃ s', Handler_swap this other s = Normal tt s' ∧
        subscriptions (heap s') this = v2 ∧
        subscriptions (heap s') other = v1 ∧
        (∀ e, subscribers (heap s') e =
              remove_all other (remove_all this (subscribers (heap s) e))
              ++ replicate (occurrences e v2) this
              ++ replicate (occurrences e v1) other) ∧
        (∀ e, e ∈ v1 → last (subscribers (heap s') e) = Some other) ∧
        (∀ e, e ∈ v2 → e ∉ v1 →
              last (subscribers (heap s') e) = Some this).
Proof.
  intros Hm Hne Ht Ho.
  destruct (Handler_swap_subscribers s this other f1 v1 f2 v2 Hm Ht Ho)
    as (s' & Hrun & _ & Ht' & Ho' & _ & _ & Hsub).
  exists s'. split_and!; [done| | |done| |].
  - by rewrite (subscriptions_lookup _ _ _ Ht').
  - by rewrite (subscriptions_lookup _ _ _ Ho').
  - intros e He. rewrite Hsub, app_assoc.
    by apply last_app_replicate, occurrences_pos.
  - intros e He2 He1. rewrite Hsub.
    apply occurrences_zero in He1 as ->. simpl. rewrite app_nil_r.
    by apply last_app_replicate, occurrences_pos.
Qed.

(** C8 (what the code does). Swapping an object with itself is not
    neutral: [Handler::swap] leaves the handler's members as they were
    but every event ends up listing the handler twice as often as the
    handler lists the event, and [Event::swap] leaves [m_handler] as it
    was but every handler ends up listing the event twice as often as the
    event lists the handler. *)
Theorem self_swap_doubles_registrations s :
  mirrored (heap s) →
  (∀ h f v, handlers (heap s) !! h = Some (mkHandler f v) →
     ∃ s', Handler_swap h h s = Normal tt s' ∧
           handlers (heap s') !! h = Some (mkHandler f v) ∧
           ∀ e, occurrences h (subscribers (heap s') e) =
                2 * occurrences e (subscriptions (heap s') h)) ∧
  (∀ e v, events (heap s) !! e = Some (mkEvent v) →
     ∃ s', Event_swap e e s = Normal tt s' ∧
           events (heap s') !! e = Some (mkEvent v) ∧
           ∀ h, occurrences e (subscriptions (heap s') h) =
                2 * occurrences h (subscribers (heap s') e)).
Proof.
  intros Hm. split.
  - intros h f v Hh.
    destruct (Handler_swap_subscribers s h h f v f v Hm Hh Hh)
      as (s' & Hrun & _ & Hh' & _ & _ & _ & Hsub).
    exists s'. split_and!; [done..|]. intros e.
    rewrite Hsub, (subscriptions_lookup _ _ _ Hh'), !occurrences_app,
      !occurrences_replicate, decide_True by done.
    rewrite occurrences_remove_all_eq. cbn [m_subscribedTo m_handler]. lia.
  - intros e v He.
    destruct (Event_swap_subscriptions s e e v v Hm He He)
      as (s' & Hrun & _ & He' & _ & _ & _ & Hsub).
    exists s'. split_and!; [done..|]. intros h.
    rewrite Hsub, (subscribers_lookup _ _ _ He'), !occurrences_app,
      !occurrences_replicate, decide_True by done.
    rewrite occurrences_remove_all_eq. cbn [m_subscribedTo m_handler]. lia.
Qed.

(** ** Move *)

Lemma mirrored_alloc_handler σ this f :
  mirrored σ → handlers σ !! this = None →
  mirrored (mkHeap (<[this := mkHandler f []]> (handlers σ)) (events σ)).
Proof.
  intros Hm Hd h e. unfold subscribers, subscriptions. cbn [handlers events].
  specialize (Hm h e). unfold subscribers, subscriptions in Hm.
  destruct (decide (this = h)) as [->|Hne].
  - rewrite lookup_insert_eq. by rewrite Hd in Hm.
  - by rewrite lookup_insert_ne.
Qed.

Lemma mirrored_alloc_event σ this :
  mirrored σ → events σ !! this = None →
  mirrored (mkHeap (handlers σ) (<[this := mkEvent []]> (events σ))).
Proof.
  intros Hm Hd h e. unfold subscribers, subscriptions. cbn [handlers events].
  specialize (Hm h e). unfold subscribers, subscriptions in Hm.
  destruct (decide (this = e)) as [->|Hne].
  - rewrite lookup_insert_eq. by rewrite Hd in Hm.
  - by rewrite lookup_insert_ne.
Qed.

Lemma Handler_move_ctor_mirrored s this other f v :
  mirrored (heap s) →
  handlers (heap s) !! this = None →
  handlers (heap s) !! other = Some (mkHandler f v) →
  ∃ s', Handler_move_ctor this other s = Normal tt s' ∧
        world s' = world s ∧
        handlers (heap s') !! this = Some (mkHandler f v) ∧
        handlers (heap s') !! other = Some (mkHandler None []) ∧
        (∀ h, h ≠ this → h ≠ other →
              handlers (heap s') !! h = handlers (heap s) !! h) ∧
        (∀ e, is_Some (events (heap s') !! e) ↔
              is_Some (events (heap s) !! e)) ∧
        ∀ e, subscribers (heap s') e =
             remove_all other (subscribers (heap s) e)
             ++ replicate (occurrences e v) this.
Proof.
  intros Hm Hd Ho. unfold Handler_move_ctor.
  assert (this ≠ other) as Hne by congruence.
  set (s0 := mkState (mkHeap (<[this := mkHandler None []]>
                                (handlers (heap s))) (events (heap s)))
                     (world s)).
  assert (alloc_handler this (mkHandler None []) s = Normal tt s0) as Hrun0
    by (unfold alloc_handler; by rewrite Hd).
  step Hrun0.
  destruct (Handler_swap_subscribers s0 this other None [] f v)
    as (s' & Hrun & Hw & Ht' & Ho' & Hf' & Hl' & Hsub).
  { by apply mirrored_alloc_handler. }
  { apply lookup_insert_eq. }
  { cbn. by rewrite lookup_insert_ne. }
  exists s'. split_and!; [done..| | |].
  - intros h Hh Hh'. rewrite Hf' by done. cbn. by rewrite lookup_insert_ne.
  - done.
  - intros e. rewrite Hsub. cbn [replicate occurrences filter length].
    rewrite app_nil_r. do 2 f_equal.
    change (subscribers (heap s0) e) with (subscribers (heap s) e).
    apply remove_all_absent, occurrences_zero.
    rewrite (Hm this e). unfold subscriptions. by rewrite Hd.
Qed.

Lemma Event_move_ctor_mirrored s this other v :
  mirrored (heap s) →
  events (heap s) !! this = None →
  events (heap s) !! other = Some (mkEvent v) →
  ∃ s', Event_move_ctor this other s = Normal tt s' ∧
        world s' = world s ∧
        events (heap s') !! this = Some (mkEvent v) ∧
        events (heap s') !! other = Some (mkEvent []) ∧
        (∀ e, e ≠ this → e ≠ other →
              events (heap s') !! e = events (heap s) !! e) ∧
        (∀ h, m_function <$> handlers (heap s') !! h =
              m_function <$> handlers (heap s) !! h) ∧
        ∀ h, subscriptions (heap s') h =
             remove_all other (subscriptions (heap s) h)
             ++ replicate (occurrences h v) this.
Proof.
  intros Hm Hd Ho. unfold Event_move_ctor.
  assert (this ≠ other) as Hne by congruence.
  set (s0 := mkState (mkHeap (handlers (heap s))
                             (<[this := mkEvent []]> (events (heap s))))
                     (world s)).
  assert (alloc_event this (mkEvent []) s = Normal tt s0) as Hrun0
    by (unfold alloc_event; by rewrite Hd).
  step Hrun0.
  destruct (Event_swap_subscriptions s0 this other [] v)
    as (s' & Hrun & Hw & Ht' & Ho' & Hf' & Hl' & Hsub).
  { by apply mirrored_alloc_event. }
  { apply lookup_insert_eq. }
  { cbn. by rewrite lookup_insert_ne. }
  exists s'. split_and!; [done..| | |].
  - intros e He He'. rewrite Hf' by done. cbn. by rewrite lookup_insert_ne.
  - done.
  - intros h. rewrite Hsub. cbn [replicate occurrences filter length].
    rewrite app_nil_r. do 2 f_equal.
    change (subscriptions (heap s0) h) with (subscriptions (heap s) h).
    apply remove_all_absent, occurrences_zero.
    rewrite <- (Hm h this). unfold subscribers. by rewrite Hd.
Qed.

(** C2 (as amended). In a store that satisfies the invariant, move
    construction gives the new object the members of the source and
    leaves the source with an empty vector (and, for a handler, an empty
    function); move assignment between two distinct objects exchanges
    their members, so the source ends with what the destination held.
    In both cases every partner loses all its entries of the two objects
    and gets, at its end, one entry of the object that now lists it per
    listing. *)
Theorem move_transfers_subscriptions s :
  mirrored (heap s) →
  (∀ this other f v,
     handlers (heap s) !! this = None →
     handlers (heap s) !! other = Some (mkHandler f v) →
     ∃ s', Handler_move_ctor this other s = Normal tt s' ∧
           handlers (heap s') !! this = Some (mkHandler f v) ∧
           handlers (heap s') !! other = Some (mkHandler None []) ∧
           ∀ e, subscribers (heap s') e =
                remove_all other (subscribers (heap s) e)
                ++ replicate (occurrences e v) this) ∧
  (∀ this other f1 v1 f2 v2,
     this ≠ other →
     handlers (heap s) !! this = Some (mkHandler f1 v1) →
     handlers (heap s) !! other = Some (mkHandler f2 v2) →
     ∃ s', Handler_move_assign this other s = Normal tt s' ∧
           handlers (heap s') !! this = Some (mkHandler f2 v2) ∧
           handlers (heap s') !! other = Some (mkHandler f1 v1) ∧
           ∀ e, subscribers (heap s') e =
                remove_all other (remove_all this (subscribers (heap s) e))
                ++ replicate (occurrences e v2) this
                ++ replicate (occurrences e v1) other) ∧
  (∀ this other v,
     events (heap s) !! this = None →
     events (heap s) !! other = Some (mkEvent v) →
     ∃ s', Event_move_ctor this other s = Normal tt s' ∧
           events (heap s') !! this = Some (mkEvent v) ∧
           events (heap s') !! other = Some (mkEvent []) ∧
           ∀ h, subscriptions (heap s') h =
                remove_all other (subscriptions (heap s) h)
                ++ replicate (occurrences h v) this) ∧
  (∀ this other v1 v2,
     this ≠ other →
     events (heap s) !! this = Some (mkEvent v1) →
     events (heap s) !! other = Some (mkEvent v2) →
     ∃ s', Event_move_assign this other s = Normal tt s' ∧
           events (heap s') !! this = Some (mkEvent v2) ∧
           events (heap s') !! other = Some (mkEvent v1) ∧
           ∀ h, subscriptions (heap s') h =
                remove_all other (remove_all this (subscriptions (heap s) h))
                ++ replicate (occurrences h v2) this
                ++ replicate (occurrences h v1) other).
Proof.
  intros Hm. split_and!.
  - intros this other f v Hd Ho.
    destruct (Handler_move_ctor_mirrored s this other f v Hm Hd Ho)
      as (s' & ? & _ & ? & ? & _ & _ & ?). by exists s'.
  - intros this other f1 v1 f2 v2 _ Ht Ho. unfold Handler_move_assign.
    destruct (Handler_swap_subscribers s this other f1 v1 f2 v2 Hm Ht Ho)
      as (s' & ? & _ & ? & ? & _ & _ & ?). by exists s'.
  - intros this other v Hd Ho.
    destruct (Event_move_ctor_mirrored s this other v Hm Hd Ho)
      as (s' & ? & _ & ? & ? & _ & _ & ?). by exists s'.
  - intros this other v1 v2 _ Ht Ho. unfold Event_move_assign.
    destruct (Event_swap_subscriptions s this other v1 v2 Hm Ht Ho)
      as (s' & ? & _ & ? & ? & _ & _ & ?). by exists s'.
Qed.

(** C9. After [Handler(Handler&&)] the source holds the empty function
    and an empty [m_subscribedTo], and [Handler::invoke] on it throws
    [std::bad_function_call], leaving the state as it is. *)
Theorem moved_from_Handler_invoke_throws s this other f v args :
  mirrored (heap s) →
  handlers (heap s) !! this = None →
  handlers (heap s) !! other = Some (mkHandler f v) →
  ∃ s', Handler_move_ctor this other s = Normal tt s' ∧
        handlers (heap s') !! other = Some (mkHandler None []) ∧
        Handler_invoke other args s' = Throws bad_function_call s'.
Proof.
  intros Hm Hd Ho.
  destruct (Handler_move_ctor_mirrored s this other f v Hm Hd Ho)
    as (s' & Hrun & _ & _ & Ho' & _).
  exists s'. split_and!; [done..|].
  unfold Handler_invoke. by step (get_function_live _ _ _ Ho').
Qed.

(** ** Every operation keeps the invariant, exchanges of an object with
    itself apart *)

Lemma subscriptions_insert σ E h0 hd h :
  subscriptions (mkHeap (<[h0 := hd]> (handlers σ)) E) h =
  if decide (h0 = h) then m_subscribedTo hd else subscriptions σ h.
Proof.
  unfold subscriptions. cbn [handlers]. case_decide as Hh.
  - subst. by rewrite lookup_insert_eq.
  - by rewrite lookup_insert_ne.
Qed.

Lemma subscribers_insert σ (H : gmap nat Handler) e0 ev e :
  subscribers (mkHeap H (<[e0 := ev]> (events σ))) e =
  if decide (e0 = e) then m_handler ev else subscribers σ e.
Proof.
  unfold subscribers. cbn [events]. case_decide as He.
  - subst. by rewrite lookup_insert_eq.
  - by rewrite lookup_insert_ne.
Qed.

Lemma subscribers_same_events σ σ' e :
  events σ' = events σ → subscribers σ' e = subscribers σ e.
Proof. unfold subscribers. by intros ->. Qed.

Lemma subscriptions_same_handlers σ σ' h :
  handlers σ' = handlers σ → subscriptions σ' h = subscriptions σ h.
Proof. unfold subscriptions. by intros ->. Qed.

Lemma subscribers_remove_all σ σ' x :
  (∀ e, events σ' !! e =
        (λ ev, mkEvent (remove_all x (m_handler ev))) <$> events σ !! e) →
  ∀ e, subscribers σ' e = remove_all x (subscribers σ e).
Proof.
  intros HE e. unfold subscribers. rewrite HE.
  by destruct (events σ !! e).
Qed.

Lemma subscriptions_remove_all σ σ' x :
  (∀ h, handlers σ' !! h =
        (λ hd, mkHandler (m_function hd) (remove_all x (m_subscribedTo hd)))
          <$> handlers σ !! h) →
  ∀ h, subscriptions σ' h = remove_all x (subscriptions σ h).
Proof.
  intros HH h. unfold subscriptions. rewrite HH.
  by destruct (handlers σ !! h).
Qed.

Lemma occurrences_remove_all x y v :
  occurrences x (remove_all y v) =
  if decide (x = y) then 0 else occurrences x v.
Proof.
  case_decide as Hxy.
  - subst. apply occurrences_remove_all_eq.
  - by apply occurrences_remove_all_ne.
Qed.

Lemma occurrences_remove_first x y v :
  occurrences x (remove_first y v) =
  if decide (x = y) then occurrences x v - 1 else occurrences x v.
Proof.
  case_decide as Hxy.
  - subst. apply occurrences_remove_first_eq.
  - by apply occurrences_remove_first_ne.
Qed.

Lemma Handler_reset_preserves s this f v :
  mirrored (heap s) →
  handlers (heap s) !! this = Some (mkHandler f v) →
  ∃ s', Handler_reset this s = Normal tt s' ∧
        mirrored (heap s') ∧
        handlers (heap s') !! this = Some (mkHandler f []) ∧
        subscriptions (heap s') this = [].
Proof.
  intros Hm Hh.
  destruct (Handler_reset_mirrored s this f v Hm Hh) as (E' & Hrun & HE').
  eexists. split; [exact Hrun|]. cbn [heap]. split_and!.
  - intros h e.
    rewrite (subscribers_remove_all (heap s) _ this) by done.
    rewrite subscriptions_insert, occurrences_remove_all.
    destruct (decide (this = h)) as [->|Hne].
    + by rewrite decide_True.
    + rewrite decide_False by done. apply Hm.
  - apply lookup_insert_eq.
  - by rewrite subscriptions_insert, decide_True.
Qed.

Lemma Event_reset_preserves s this v :
  mirrored (heap s) →
  events (heap s) !! this = Some (mkEvent v) →
  ∃ s', Event_reset this s = Normal tt s' ∧
        mirrored (heap s') ∧
        events (heap s') !! this = Some (mkEvent []) ∧
        subscribers (heap s') this = [].
Proof.
  intros Hm He.
  destruct (Event_reset_mirrored s this v Hm He) as (H' & Hrun & HH').
  eexists. split; [exact Hrun|]. cbn [heap]. split_and!.
  - intros h e.
    rewrite (subscriptions_remove_all (heap s) _ this) by done.
    rewrite subscribers_insert, occurrences_remove_all.
    destruct (decide (this = e)) as [->|Hne].
    + by rewrite decide_True.
    + rewrite decide_False by done. apply Hm.
  - apply lookup_insert_eq.
  - by rewrite subscribers_insert, decide_True.
Qed.

Lemma mirrored_free_handler σ this :
  mirrored σ → subscriptions σ this = [] →
  mirrored (mkHeap (delete this (handlers σ)) (events σ)).
Proof.
  intros Hm Hempty h e. specialize (Hm h e).
  unfold subscribers, subscriptions in *. cbn [handlers events].
  destruct (decide (this = h)) as [->|Hne].
  - rewrite lookup_delete_eq. by rewrite Hempty in Hm.
  - by rewrite lookup_delete_ne.
Qed.

Lemma mirrored_free_event σ this :
  mirrored σ → subscribers σ this = [] →
  mirrored (mkHeap (handlers σ) (delete this (events σ))).
Proof.
  intros Hm Hempty h e. specialize (Hm h e).
  unfold subscribers, subscriptions in *. cbn [handlers events].
  destruct (decide (this = e)) as [->|Hne].
  - rewrite lookup_delete_eq. by rewrite Hempty in Hm.
  - by rewrite lookup_delete_ne.
Qed.

Lemma Handler_dtor_preserves s this :
  mirrored (heap s) →
  is_Some (handlers (heap s) !! this) →
  ∃ s', Handler_dtor this s = Normal tt s' ∧ mirrored (heap s').
Proof.
  intros Hm [[f v] Hh]. unfold Handler_dtor.
  destruct (Handler_reset_preserves s this f v Hm Hh)
    as (s1 & Hrun & Hm1 & Hh1 & Hempty).
  step Hrun. unfold free_handler. rewrite Hh1.
  eexists. split; [done|]. by apply mirrored_free_handler.
Qed.

Lemma Event_dtor_preserves s this :
  mirrored (heap s) →
  is_Some (events (heap s) !! this) →
  ∃ s', Event_dtor this s = Normal tt s' ∧ mirrored (heap s').
Proof.
  intros Hm [[v] He]. unfold Event_dtor.
  destruct (Event_reset_preserves s this v Hm He)
    as (s1 & Hrun & Hm1 & He1 & Hempty).
  step Hrun. unfold free_event. rewrite He1.
  eexists. split; [done|]. by apply mirrored_free_event.
Qed.

Lemma Handler_swap_preserves s this other :
  mirrored (heap s) →
  this ≠ other →
  is_Some (handlers (heap s) !! this) →
  is_Some (handlers (heap s) !! other) →
  ∃ s', Handler_swap this other s = Normal tt s' ∧ mirrored (heap s').
Proof.
  intros Hm Hne [[f1 v1] Ht] [[f2 v2] Ho].
  destruct (Handler_swap_subscribers s this other f1 v1 f2 v2 Hm Ht Ho)
    as (s' & Hrun & _ & Ht' & Ho' & Hf' & _ & Hsub).
  exists s'. split; [done|]. intros h e.
  rewrite Hsub, !occurrences_app, !occurrences_replicate,
    !occurrences_remove_all.
  destruct (decide (h = this)) as [->|Hht].
  - rewrite (subscriptions_lookup _ _ _ Ht').
    rewrite decide_False, !decide_True, decide_False by done.
    cbn [m_subscribedTo]. lia.
  - destruct (decide (h = other)) as [->|Hho].
    + rewrite (subscriptions_lookup _ _ _ Ho').
      rewrite decide_False, decide_True by done. cbn [m_subscribedTo]. lia.
    + rewrite !decide_False by done. rewrite (Hm h e).
      unfold subscriptions. rewrite Hf' by done. lia.
Qed.

Lemma Event_swap_preserves s this other :
  mirrored (heap s) →
  this ≠ other →
  is_Some (events (heap s) !! this) →
  is_Some (events (heap s) !! other) →
  ∃ s', Event_swap this other s = Normal tt s' ∧ mirrored (heap s').
Proof.
  intros Hm Hne [[v1] Ht] [[v2] Ho].
  destruct (Event_swap_subscriptions s this other v1 v2 Hm Ht Ho)
    as (s' & Hrun & _ & Ht' & Ho' & Hf' & _ & Hsub).
  exists s'. split; [done|]. intros h e.
  rewrite Hsub, !occurrences_app, !occurrences_replicate,
    !occurrences_remove_all.
  destruct (decide (e = this)) as [->|Het].
  - rewrite (subscribers_lookup _ _ _ Ht').
    rewrite decide_False, !decide_True, decide_False by done.
    cbn [m_handler]. lia.
  - destruct (decide (e = other)) as [->|Heo].
    + rewrite (subscribers_lookup _ _ _ Ho').
      rewrite decide_False, decide_True by done. cbn [m_handler]. lia.
    + rewrite !decide_False by done. rewrite <- (Hm h e).
      unfold subscribers. rewrite Hf' by done. lia.
Qed.

Lemma Handler_move_ctor_preserves s this other :
  mirrored (heap s) →
  handlers (heap s) !! this = None →
  is_Some (handlers (heap s) !! other) →
  ∃ s', Handler_move_ctor this other s = Normal tt s' ∧
        mirrored (heap s') ∧
        is_Some (handlers (heap s') !! other).
Proof.
  intros Hm Hd [[f v] Ho].
  assert (this ≠ other) as Hne by congruence.
  destruct (Handler_move_ctor_mirrored s this other f v Hm Hd Ho)
    as (s' & Hrun & _ & Ht' & Ho' & Hf' & _ & Hsub).
  exists s'. split_and!; [done| |by eauto]. intros h e.
  rewrite Hsub, !occurrences_app, !occurrences_replicate,
    !occurrences_remove_all.
  destruct (decide (h = this)) as [->|Hht].
  - rewrite (subscriptions_lookup _ _ _ Ht').
    rewrite decide_False, decide_True by done. cbn [m_subscribedTo].
    rewrite (Hm this e). unfold subscriptions. by rewrite Hd.
  - destruct (decide (h = other)) as [->|Hho].
    + rewrite (subscriptions_lookup _ _ _ Ho').
      by rewrite decide_False by done.
    + rewrite !decide_False by done. rewrite (Hm h e).
      unfold subscriptions. rewrite Hf' by done. lia.
Qed.

Lemma Event_move_ctor_preserves s this other :
  mirrored (heap s) →
  events (heap s) !! this = None →
  is_Some (events (heap s) !! other) →
  ∃ s', Event_move_ctor this other s = Normal tt s' ∧ mirrored (heap s').
Proof.
  intros Hm Hd [[v] Ho].
  assert (this ≠ other) as Hne by congruence.
  destruct (Event_move_ctor_mirrored s this other v Hm Hd Ho)
    as (s' & Hrun & _ & Ht' & Ho' & Hf' & _ & Hsub).
  exists s'. split; [done|]. intros h e.
  rewrite Hsub, !occurrences_app, !occurrences_replicate,
    !occurrences_remove_all.
  destruct (decide (e = this)) as [->|Het].
  - rewrite (subscribers_lookup _ _ _ Ht').
    rewrite decide_False, decide_True by done. cbn [m_handler].
    rewrite <- (Hm h this). unfold subscribers. by rewrite Hd.
  - destruct (decide (e = other)) as [->|Heo].
    + rewrite (subscribers_lookup _ _ _ Ho').
      by rewrite decide_False by done.
    + rewrite !decide_False by done. rewrite <- (Hm h e).
      unfold subscribers. rewrite Hf' by done. lia.
Qed.

Lemma Event_subscribe_preserves s e h :
  mirrored (heap s) →
  is_Some (events (heap s) !! e) →
  is_Some (handlers (heap s) !! h) →
  ∃ s', Event_subscribe e h s = Normal tt s' ∧
        mirrored (heap s') ∧
        (∀ h', is_Some (handlers (heap s') !! h') ↔
               is_Some (handlers (heap s) !! h')).
Proof.
  intros Hm [ev He] [hd Hh].
  rewrite (Event_subscribe_live _ _ _ _ _ He Hh).
  eexists. split; [done|]. cbn [heap]. split.
  - intros h' e'. rewrite subscribers_insert, subscriptions_insert.
    specialize (Hm h' e'). cbn [m_handler m_subscribedTo].
    destruct (decide (e = e')) as [<-|Hee], (decide (h = h')) as [<-|Hhh].
    + rewrite !occurrences_app, !occurrences_cons, !decide_True by done.
      rewrite (subscribers_lookup _ _ _ He),
        (subscriptions_lookup _ _ _ Hh) in Hm.
      rewrite !occurrences_nil. lia.
    + rewrite occurrences_app, occurrences_cons, decide_False by done.
      rewrite (subscribers_lookup _ _ _ He) in Hm.
      rewrite occurrences_nil. lia.
    + rewrite occurrences_app, occurrences_cons, decide_False by done.
      rewrite (subscriptions_lookup _ _ _ Hh) in Hm.
      rewrite occurrences_nil. lia.
    + done.
  - intros h'. cbn. rewrite lookup_insert_is_Some.
    split; [intros [<-|[_ ?]]; eauto | intros ?].
    destruct (decide (h = h')); auto.
Qed.

Lemma Event_unsubscribe_preserves s e h :
  mirrored (heap s) →
  is_Some (events (heap s) !! e) →
  ∃ s', Event_unsubscribe e h s = Normal tt s' ∧ mirrored (heap s').
Proof.
  intros Hm [ev He]. destruct (decide (h ∈ m_handler ev)) as [Hin|Hn].
  - destruct (mirrored_handler_live _ _ _ _ Hm He Hin) as [hd Hh].
    rewrite (Event_unsubscribe_present _ _ _ _ _ He Hin Hh).
    eexists. split; [done|]. cbn [heap].
    intros h' e'. rewrite subscribers_insert, subscriptions_insert.
    specialize (Hm h' e'). cbn [m_handler m_subscribedTo].
    destruct (decide (e = e')) as [<-|Hee], (decide (h = h')) as [<-|Hhh].
    + rewrite !occurrences_remove_first_eq.
      rewrite (subscribers_lookup _ _ _ He),
        (subscriptions_lookup _ _ _ Hh) in Hm. lia.
    + rewrite occurrences_remove_first_ne by done.
      by rewrite (subscribers_lookup _ _ _ He) in Hm.
    + rewrite occurrences_remove_first_ne by done.
      by rewrite (subscriptions_lookup _ _ _ Hh) in Hm.
    + done.
  - rewrite (Event_unsubscribe_absent _ _ _ _ He Hn). by exists s.
Qed.

Lemma Event_subscribe_function_preserves s this function local result :
  mirrored (heap s) →
  is_Some (events (heap s) !! this) →
  handlers (heap s) !! local = None →
  handlers (heap s) !! result = None →
  local ≠ result →
  ∃ s', Event_subscribe_function this function local result s
        = Normal tt s' ∧ mirrored (heap s').
Proof.
  intros Hm He Hl Hr Hne. unfold Event_subscribe_function, Handler_ctor.
  set (s1 := mkState (mkHeap (<[local := mkHandler function []]>
                                (handlers (heap s))) (events (heap s)))
                     (world s)).
  assert (alloc_handler local (mkHandler function []) s = Normal tt s1)
    as Hrun1 by (unfold alloc_handler; by rewrite Hl).
  step Hrun1.
  destruct (Event_subscribe_preserves s1 this local)
    as (s2 & Hrun2 & Hm2 & Hlive2).
  { by apply mirrored_alloc_handler. }
  { done. }
  { cbn. rewrite lookup_insert_eq. eauto. }
  step Hrun2.
  destruct (Handler_move_ctor_preserves s2 result local Hm2)
    as (s3 & Hrun3 & Hm3 & Hlive3).
  { apply eq_None_not_Some. rewrite Hlive2. cbn.
    rewrite lookup_insert_ne by done. by rewrite Hr; intros [? [=]]. }
  { apply Hlive2. cbn. rewrite lookup_insert_eq. eauto. }
  step Hrun3.
  by apply Handler_dtor_preserves.
Qed.

Lemma mirrored_empty : mirrored (mkHeap (∅ : gmap nat Handler) ∅).
Proof. intros h e. unfold subscribers, subscriptions. cbn. by rewrite !lookup_empty. Qed.

Lemma perform_keeps_mirror s o :
  mirrored (heap s) →
  admissible (heap s) o →
  ¬ self_exchange o →
  ∃ s', perform o s = Normal tt s' ∧ mirrored (heap s').
Proof.
  intros Hm Hadm Hself.
  destruct o as [this function|this|this other|this other|this other|this
                |this|this handler|this handler|this|this other|this other
                |this other|this|this function local result];
    cbn [perform admissible self_exchange] in *;
    unfold live_handler, live_event in *.
  - apply eq_None_not_Some in Hadm. unfold Handler_ctor, alloc_handler.
    rewrite Hadm. eexists. split; [done|]. by apply mirrored_alloc_handler.
  - destruct Hadm as [[f v] Hh].
    destruct (Handler_reset_preserves s this f v Hm Hh) as (s' & ? & ? & _).
    by exists s'.
  - destruct Hadm. by apply Handler_swap_preserves.
  - destruct Hadm as [Hd%eq_None_not_Some Ho].
    destruct (Handler_move_ctor_preserves s this other Hm Hd Ho)
      as (s' & ? & ? & _).
    by exists s'.
  - destruct Hadm. by apply Handler_swap_preserves.
  - by apply Handler_dtor_preserves.
  - apply eq_None_not_Some in Hadm. unfold Event_ctor, alloc_event.
    rewrite Hadm. eexists. split; [done|]. by apply mirrored_alloc_event.
  - destruct Hadm as [He Hh].
    destruct (Event_subscribe_preserves s this handler Hm He Hh)
      as (s' & ? & ? & _).
    by exists s'.
  - by apply Event_unsubscribe_preserves.
  - destruct Hadm as [[v] He].
    destruct (Event_reset_preserves s this v Hm He) as (s' & ? & ? & _).
    by exists s'.
  - destruct Hadm. by apply Event_swap_preserves.
  - destruct Hadm as [Hd%eq_None_not_Some Ho].
    by apply Event_move_ctor_preserves.
  - destruct Hadm. by apply Event_swap_preserves.
  - by apply Event_dtor_preserves.
  - destruct Hadm as (He & Hl%eq_None_not_Some & Hr%eq_None_not_Some & Hne).
    by apply Event_subscribe_function_preserves.
Qed.

(** The invariant is kept by every admissible call of a public operation
    that changes the relationship lists, as long as the call does not
    exchange an object with itself. *)
Theorem mirrored_preserved s o :
  mirrored (heap s) →
  admissible (heap s) o →
  ¬ self_exchange o →
  ∃ s', perform o s = Normal tt s' ∧ mirrored (heap s').
Proof. apply perform_keeps_mirror. Qed.

Lemma reachable_keeps_mirror s : reachable s → mirrored (heap s).
Proof.
  induction 1 as [w|s o s' _ IH Hadm Hself Hrun|s e args s' _ IH Hrun
                 |s e args x s' _ IH Hrun].
  - apply mirrored_empty.
  - destruct (perform_keeps_mirror s o IH Hadm Hself) as (s'' & Hrun' & Hm).
    congruence.
  - pose proof (Event_invoke_heap e args s) as Hheap.
    rewrite Hrun in Hheap. by rewrite Hheap.
  - pose proof (Event_invoke_heap e args s) as Hheap.
    rewrite Hrun in Hheap. by rewrite Hheap.
Qed.

(** At every quiescent point of such a program the invariant holds. *)
Theorem reachable_mirrored s : reachable s → mirrored (heap s).
Proof. apply reachable_keeps_mirror. Qed.

(** In a reachable state every admissible call that is not a
    self-exchange returns normally, into a reachable state. *)
Theorem reachable_total s o :
  reachable s → admissible (heap s) o → ¬ self_exchange o →
  ∃ s', perform o s = Normal tt s' ∧ reachable s'.
Proof.
  intros Hr Hadm Hself.
  destruct (perform_keeps_mirror s o (reachable_keeps_mirror s Hr) Hadm Hself)
    as (s' & Hrun & _).
  exists s'. split; [done|]. by eapply reachable_perform.
Qed.

(** ** The relationship operations neither throw nor touch the world *)

Lemma quiet_ret {A} (a : A) : quiet (ret a : M A).
Proof. by intros s. Qed.

Lemma quiet_undefined {A} : quiet (undefined : M A).
Proof. by intros s. Qed.

Lemma quiet_bind {A B} (c : M A) (k : A → M B) :
  quiet c → (∀ a, quiet (k a)) → quiet (bind c k).
Proof.
  intros Hc Hk s. unfold bind. specialize (Hc s).
  destruct (c s) as [a s1| |]; [|done..].
  specialize (Hk a s1). destruct (k a s1); [congruence|done..].
Qed.

Lemma quiet_for_each {A} (v : list A) (body : A → M unit) :
  (∀ x, quiet (body x)) → quiet (for_each v body).
Proof.
  intros Hbody. induction v as [|x v IH]; simpl.
  - apply quiet_ret.
  - by apply quiet_bind.
Qed.

Lemma quiet_load_handler p : quiet (load_handler p : M _).
Proof. intros s. unfold load_handler. by destruct (_ !! _). Qed.

Lemma quiet_store_handler p hd : quiet (store_handler p hd : M _).
Proof. intros s. unfold store_handler. by destruct (_ !! _). Qed.

Lemma quiet_load_event p : quiet (load_event p : M _).
Proof. intros s. unfold load_event. by destruct (_ !! _). Qed.

Lemma quiet_store_event p ev : quiet (store_event p ev : M _).
Proof. intros s. unfold store_event. by destruct (_ !! _). Qed.

Lemma quiet_alloc_handler p hd : quiet (alloc_handler p hd : M _).
Proof. intros s. unfold alloc_handler. by destruct (_ !! _). Qed.

Lemma quiet_free_handler p : quiet (free_handler p : M _).
Proof. intros s. unfold free_handler. by destruct (_ !! _). Qed.

Lemma quiet_alloc_event p ev : quiet (alloc_event p ev : M _).
Proof. intros s. unfold alloc_event. by destruct (_ !! _). Qed.

Lemma quiet_free_event p : quiet (free_event p : M _).
Proof. intros s. unfold free_event. by destruct (_ !! _). Qed.

Local Ltac quiet_step :=
  first
    [ apply quiet_ret | apply quiet_undefined
    | apply quiet_load_handler | apply quiet_store_handler
    | apply quiet_load_event | apply quiet_store_event
    | apply quiet_alloc_handler | apply quiet_free_handler
    | apply quiet_alloc_event | apply quiet_free_event
    | apply quiet_bind; [|intros ?]
    | apply quiet_for_each; intros ?
    | case_decide
    | match goal with |- quiet (match ?o with _ => _ end) => destruct o end ].

Local Ltac quiet_solve := repeat quiet_step.

Lemma quiet_get_subscribedTo p : quiet (get_subscribedTo p : M _).
Proof. unfold get_subscribedTo. quiet_solve. Qed.

Lemma quiet_set_subscribedTo p v : quiet (set_subscribedTo p v : M _).
Proof. unfold set_subscribedTo. quiet_solve. Qed.

Lemma quiet_get_function p : quiet (get_function p : M _).
Proof. unfold get_function. quiet_solve. Qed.

Lemma quiet_set_function p f : quiet (set_function p f : M _).
Proof. unfold set_function. quiet_solve. Qed.

Lemma quiet_get_handler p : quiet (get_handler p : M _).
Proof. unfold get_handler. quiet_solve. Qed.

Lemma quiet_set_handler p v : quiet (set_handler p v : M _).
Proof. unfold set_handler. quiet_solve. Qed.

Lemma quiet_removeEvent h e : quiet (removeEvent h e : M _).
Proof.
  unfold removeEvent. apply quiet_bind; [apply quiet_get_subscribedTo|].
  intros v. cbv zeta. case_decide; [apply quiet_set_subscribedTo|apply quiet_ret].
Qed.

Lemma quiet_addEvent h e : quiet (addEvent h e : M _).
Proof.
  unfold addEvent. apply quiet_bind; [apply quiet_get_subscribedTo|].
  intros v. apply quiet_set_subscribedTo.
Qed.

Lemma quiet_subscribeConstHandler e h : quiet (subscribeConstHandler e h : M _).
Proof.
  unfold subscribeConstHandler. apply quiet_bind; [apply quiet_get_handler|].
  intros v. apply quiet_set_handler.
Qed.

Lemma quiet_unsubscribeConstHandler e h :
  quiet (unsubscribeConstHandler e h : M _).
Proof.
  unfold unsubscribeConstHandler.
  apply quiet_bind; [apply quiet_get_handler|].
  intros v. cbv zeta. case_decide; [apply quiet_ret|apply quiet_set_handler].
Qed.

Lemma quiet_Handler_reset this : quiet (Handler_reset this : M _).
Proof.
  unfold Handler_reset. apply quiet_bind; [apply quiet_get_subscribedTo|].
  intros v. apply quiet_bind; [|intros _; apply quiet_set_subscribedTo].
  apply quiet_for_each. intros e. apply quiet_unsubscribeConstHandler.
Qed.

Lemma quiet_Event_reset this : quiet (Event_reset this : M _).
Proof.
  unfold Event_reset. apply quiet_bind; [apply quiet_get_handler|].
  intros v. apply quiet_bind; [|intros _; apply quiet_set_handler].
  apply quiet_for_each. intros h. apply quiet_removeEvent.
Qed.

Local Ltac quiet_members :=
  repeat first
    [ apply quiet_get_subscribedTo | apply quiet_set_subscribedTo
    | apply quiet_get_function | apply quiet_set_function
    | apply quiet_get_handler | apply quiet_set_handler
    | apply quiet_removeEvent | apply quiet_addEvent
    | apply quiet_subscribeConstHandler
    | apply quiet_unsubscribeConstHandler
    | apply quiet_bind; [|intros ?]
    | apply quiet_for_each; intros ? ].

Lemma quiet_Handler_swap this other : quiet (Handler_swap this other : M _).
Proof.
  unfold Handler_swap, swap_subscribedTo, swap_function. quiet_members.
Qed.

Lemma quiet_Event_swap this other : quiet (Event_swap this other : M _).
Proof. unfold Event_swap, swap_handler. quiet_members. Qed.

Lemma quiet_Event_subscribe e h : quiet (Event_subscribe e h : M _).
Proof. unfold Event_subscribe. quiet_members. Qed.

Lemma quiet_Event_unsubscribe e h : quiet (Event_unsubscribe e h : M _).
Proof.
  unfold Event_unsubscribe. apply quiet_bind; [apply quiet_get_handler|].
  intros v. cbv zeta. case_decide; [apply quiet_ret|].
  apply quiet_bind.
  - destruct (v !! find h v); [apply quiet_removeEvent|apply quiet_undefined].
  - intros _. quiet_members.
Qed.

(** No operation on the relationship lists runs a reaction: whatever the
    store, such a call cannot leave by an exception, and when it returns
    the world is the one it started in. *)
Theorem perform_never_throws o s :
  match perform o s with
  | Normal _ s' => world s' = world s
  | Throws _ _ => False
  | Undefined => True
  end.
Proof.
  revert s. change (quiet (perform o)).
  destruct o; cbn [perform];
    unfold Handler_ctor, Handler_move_ctor, Handler_move_assign,
      Handler_dtor, Event_ctor, Event_move_ctor, Event_move_assign,
      Event_dtor, Event_subscribe_function, Handler_move_ctor,
      Handler_dtor, Handler_ctor;
    repeat first
      [ apply quiet_alloc_handler | apply quiet_free_handler
      | apply quiet_alloc_event | apply quiet_free_event
      | apply quiet_Handler_reset | apply quiet_Event_reset
      | apply quiet_Handler_swap | apply quiet_Event_swap
      | apply quiet_Event_subscribe | apply quiet_Event_unsubscribe
      | apply quiet_bind; [|intros ?] ].
Qed.

(** ** Further facts about removal *)

Lemma remove_all_app x v1 v2 :
  remove_all x (v1 ++ v2) = remove_all x v1 ++ remove_all x v2.
Proof. unfold remove_all. apply filter_app. Qed.

Lemma remove_all_replicate_eq x n : remove_all x (replicate n x) = [].
Proof.
  unfold remove_all. induction n as [|n IH]; [done|].
  simpl. by rewrite filter_cons_False by (intros ?; done).
Qed.

Lemma remove_all_replicate_ne x y n :
  x ≠ y → remove_all x (replicate n y) = replicate n y.
Proof.
  intros Hne. apply remove_all_absent. intros Hin.
  apply elem_of_replicate in Hin as [-> _]. done.
Qed.

Lemma remove_all_idemp x v : remove_all x (remove_all x v) = remove_all x v.
Proof.
  apply remove_all_absent, occurrences_zero, occurrences_remove_all_eq.
Qed.

Lemma remove_all_remove_first x v :
  remove_all x (remove_first x v) = remove_all x v.
Proof.
  unfold remove_all. induction v as [|y v IH]; simpl; [done|].
  case_decide as Hy.
  - subst. by rewrite filter_cons_False by (intros ?; done).
  - by rewrite !filter_cons_True, IH by done.
Qed.

Lemma remove_all_not_elem x v : x ∉ remove_all x v.
Proof. apply occurrences_zero, occurrences_remove_all_eq. Qed.

Lemma remove_all_elem_ne x y v : y ∈ remove_all x v → y ≠ x ∧ y ∈ v.
Proof. unfold remove_all. rewrite list_elem_of_filter. done. Qed.

(** Removing the first entry [n] times from a vector whose only entries
    of [x] are [m ≥ n] copies at its end leaves [m - n] of them. *)
Lemma iter_remove_first_end x v n m :
  x ∉ v → n ≤ m →
  Nat.iter n (remove_first x) (v ++ replicate m x) = v ++ replicate (m - n) x.
Proof.
  intros Hn. revert m. induction n as [|n IH]; intros m Hle.
  - by rewrite Nat.sub_0_r.
  - destruct m as [|m]; [lia|]. rewrite Nat.iter_succ_r.
    cbn [replicate].
    rewrite (remove_first_split x v (replicate m x)) by done.
    rewrite IH by lia. done.
Qed.

Lemma events_lookup_view σ σ' e :
  (is_Some (events σ' !! e) ↔ is_Some (events σ !! e)) →
  subscribers σ' e = subscribers σ e →
  events σ' !! e = events σ !! e.
Proof.
  unfold subscribers. intros Hlive Hsub.
  destruct (events σ' !! e) as [[v']|] eqn:He', (events σ !! e) as [[v]|] eqn:He;
    simplify_eq/=; try done.
  - destruct Hlive as [Hl _]. by destruct Hl.
  - destruct Hlive as [_ Hl]. by destruct Hl.
Qed.

Lemma handlers_lookup_view σ σ' h :
  m_function <$> handlers σ' !! h = m_function <$> handlers σ !! h →
  subscriptions σ' h = subscriptions σ h →
  handlers σ' !! h = handlers σ !! h.
Proof.
  unfold subscriptions. intros Hf Hsub.
  destruct (handlers σ' !! h) as [[f' v']|], (handlers σ !! h) as [[f v]|];
    by simplify_eq/=.
Qed.

Lemma mirrored_dead_not_subscriber σ h e :
  mirrored σ → handlers σ !! h = None → h ∉ subscribers σ e.
Proof.
  intros Hm Hd. apply occurrences_zero. rewrite (Hm h e).
  unfold subscriptions. by rewrite Hd.
Qed.

Lemma mirrored_dead_not_subscription σ h e :
  mirrored σ → events σ !! e = None → e ∉ subscriptions σ h.
Proof.
  intros Hm Hd. apply occurrences_zero. rewrite <- (Hm h e).
  unfold subscribers. by rewrite Hd.
Qed.

(** ** Subscribe and unsubscribe as a round trip *)

(** Subscribing a handler that the event does not list yet and then
    unsubscribing it gives back the state the two calls started from. *)
Theorem subscribe_unsubscribe_round_trip s e v h f subs :
  events (heap s) !! e = Some (mkEvent v) →
  handlers (heap s) !! h = Some (mkHandler f subs) →
  h ∉ v →
  e ∉ subs →
  bind (Event_subscribe e h) (λ _, Event_unsubscribe e h) s = Normal tt s.
Proof.
  intros He Hh Hv Hsubs.
  step (Event_subscribe_live _ _ _ _ _ He Hh).
  cbn [m_handler m_function m_subscribedTo].
  erewrite Event_unsubscribe_present;
    [|by apply lookup_insert_eq
     |cbn; apply elem_of_app; right; left
     |by apply lookup_insert_eq].
  cbn [heap world handlers events m_handler m_function m_subscribedTo].
  rewrite !insert_insert_eq.
  rewrite (remove_first_split h v []), (remove_first_split e subs []) by done.
  rewrite !app_nil_r.
  rewrite !insert_id by done. by destruct s as [[??]?].
Qed.

(** ** Destruction *)

Lemma functions_without_has_function σ σ' h v fs :
  Forall2 (has_function σ) v fs →
  (∀ h' f', h' ≠ h → has_function σ h' f' → has_function σ' h' f') →
  Forall2 (has_function σ') (remove_all h v) (functions_without h v fs).
Proof.
  intros Hfs Hkeep. unfold functions_without, remove_all.
  induction Hfs as [|x f v fs Hf _ IH]; [constructor|].
  cbn [zip zip_with]. rewrite (filter_cons _ (x, f)), (filter_cons _ x).
  cbn [fst]. case_decide as Hx; [|done].
  cbn [fmap list_fmap snd]. constructor; [by apply Hkeep|done].
Qed.

(** The destructor of a handler, in a store that satisfies the
    invariant: the handler is gone, every event has lost all its entries
    of it and nothing else, the invariant still holds, and a later
    notification pass of any event runs the reactions of the remaining
    entries, in their old order, without ever looking at the dead
    handler. *)
Theorem Handler_dtor_unsubscribes s this f v :
  mirrored (heap s) →
  handlers (heap s) !! this = Some (mkHandler f v) →
  ∃ s', Handler_dtor this s = Normal tt s' ∧
        world s' = world s ∧
        handlers (heap s') = delete this (handlers (heap s)) ∧
        (∀ e, events (heap s') !! e =
              (λ ev, mkEvent (remove_all this (m_handler ev)))
                <$> events (heap s) !! e) ∧
        mirrored (heap s') ∧
        ∀ e l fs args,
          events (heap s) !! e = Some (mkEvent l) →
          Forall2 (has_function (heap s)) l fs →
          Event_invoke e args s' =
          pass_outcome (heap s')
            (fan_out (functions_without this l fs) args (world s)).
Proof.
  intros Hm Hh. unfold Handler_dtor.
  destruct (Handler_reset_mirrored s this f v Hm Hh) as (E' & Hrun & HE').
  step Hrun. unfold free_handler. cbn [heap handlers].
  rewrite lookup_insert_eq, delete_insert_eq.
  eexists. split; [done|]. cbn [heap world handlers events].
  split_and!; [done..| |].
  - destruct (Handler_dtor_preserves s this Hm) as (s'' & Hrun' & Hm'');
      [by eauto|].
    unfold Handler_dtor in Hrun'. rewrite (bind_Normal _ _ _ _ _ Hrun) in Hrun'.
    unfold free_handler in Hrun'. cbn [heap handlers] in Hrun'.
    rewrite lookup_insert_eq, delete_insert_eq in Hrun'. by simplify_eq.
  - intros e l fs args He Hfs.
    erewrite (Event_invoke_live _ e (remove_all this l));
      [done|cbn; by rewrite HE', He|].
    apply (functions_without_has_function (heap s)); [done|].
    intros h' f' Hne [v' Hv']. exists v'. cbn. by rewrite lookup_delete_ne.
Qed.

(** The destructor of an event: the event is gone, every handler has lost
    all its entries of it and nothing else (it stays live and keeps its
    reaction), and the invariant still holds. *)
Theorem Event_dtor_unsubscribes s this v :
  mirrored (heap s) →
  events (heap s) !! this = Some (mkEvent v) →
  ∃ s', Event_dtor this s = Normal tt s' ∧
        world s' = world s ∧
        events (heap s') = delete this (events (heap s)) ∧
        (∀ h, handlers (heap s') !! h =
              (λ hd, mkHandler (m_function hd)
                       (remove_all this (m_subscribedTo hd)))
                <$> handlers (heap s) !! h) ∧
        mirrored (heap s').
Proof.
  intros Hm He. unfold Event_dtor.
  destruct (Event_reset_mirrored s this v Hm He) as (H' & Hrun & HH').
  step Hrun. unfold free_event. cbn [heap events].
  rewrite lookup_insert_eq, delete_insert_eq.
  eexists. split; [done|]. cbn [heap world handlers events].
  split_and!; [done..|].
  destruct (Event_dtor_preserves s this Hm) as (s'' & Hrun' & Hm'');
    [by eauto|].
  unfold Event_dtor in Hrun'. rewrite (bind_Normal _ _ _ _ _ Hrun) in Hrun'.
  unfold free_event in Hrun'. cbn [heap events] in Hrun'.
  rewrite lookup_insert_eq, delete_insert_eq in Hrun'. by simplify_eq.
Qed.

(** After [Handler::reset] no event runs the handler's reaction any
    more: the pass of every event is its old pass without the entries of
    the handler, and the handler itself can still be invoked directly. *)
Theorem Handler_reset_silences s this f v :
  mirrored (heap s) →
  handlers (heap s) !! this = Some (mkHandler f v) →
  ∃ s', Handler_reset this s = Normal tt s' ∧
        world s' = world s ∧
        (∀ e l fs args,
           events (heap s) !! e = Some (mkEvent l) →
           Forall2 (has_function (heap s)) l fs →
           Event_invoke e args s' =
           pass_outcome (heap s')
             (fan_out (functions_without this l fs) args (world s))) ∧
        ∀ args, Handler_invoke this args s' =
                pass_outcome (heap s') (fan_out [f] args (world s)).
Proof.
  intros Hm Hh.
  destruct (Handler_reset_mirrored s this f v Hm Hh) as (E' & Hrun & HE').
  eexists. split; [exact Hrun|]. cbn [heap world]. split_and!; [done| |].
  - intros e l fs args He Hfs.
    erewrite (Event_invoke_live _ e (remove_all this l));
      [done|cbn; by rewrite HE', He|].
    apply (functions_without_has_function (heap s)); [done|].
    intros h' f' Hne [v' Hv']. exists v'. cbn. by rewrite lookup_insert_ne.
  - intros args. apply Handler_invoke_live. exists []. apply lookup_insert_eq.
Qed.

(** After [Event::reset] the event notifies nobody, the handlers it
    listed stay live with their reactions, and each of them can be
    subscribed again, which makes it the only subscriber. *)
Theorem Event_reset_keeps_handlers_usable s this v :
  mirrored (heap s) →
  events (heap s) !! this = Some (mkEvent v) →
  ∃ s', Event_reset this s = Normal tt s' ∧
        (∀ args, Event_invoke this args s' = Normal tt s') ∧
        (∀ h f, has_function (heap s') h f ↔ has_function (heap s) h f) ∧
        ∀ h, h ∈ v →
             ∃ s'', Event_subscribe this h s' = Normal tt s'' ∧
                    subscribers (heap s'') this = [h] ∧
                    subscriptions (heap s'') h =
                    remove_all this (subscriptions (heap s) h) ++ [this].
Proof.
  intros Hm He.
  destruct (Event_reset_mirrored s this v Hm He) as (H' & Hrun & HH').
  eexists. split; [exact Hrun|]. split_and!.
  - intros args. unfold Event_invoke.
    erewrite bind_Normal;
      [|apply (get_handler_live _ _ (mkEvent [])); apply lookup_insert_eq].
    done.
  - apply has_function_same_function. intros h. cbn. rewrite HH'.
    by destruct (handlers (heap s) !! h).
  - intros h Hin.
    destruct (mirrored_handler_live _ _ _ _ Hm He Hin) as [[fh vh] Hh].
    erewrite Event_subscribe_live;
      [|apply lookup_insert_eq|cbn; by rewrite HH', Hh].
    eexists. split; [done|]. cbn [heap m_handler m_function m_subscribedTo].
    rewrite subscribers_insert, subscriptions_insert, !decide_True by done.
    by rewrite (subscriptions_lookup _ _ _ Hh).
Qed.

(** ** The convenience overload of [subscribe] *)

Lemma Event_subscribe_function_state s this function local result l :
  mirrored (heap s) →
  events (heap s) !! this = Some (mkEvent l) →
  handlers (heap s) !! local = None →
  handlers (heap s) !! result = None →
  local ≠ result →
  Event_subscribe_function this function local result s =
  Normal tt
    (mkState (mkHeap (<[result := mkHandler function [this]]>
                        (handlers (heap s)))
                     (<[this := mkEvent (l ++ [result])]> (events (heap s))))
             (world s)).
Proof.
  intros Hm He Hl Hr Hne. unfold Event_subscribe_function, Handler_ctor.
  set (s1 := mkState (mkHeap (<[local := mkHandler function []]>
                                (handlers (heap s))) (events (heap s)))
                     (world s)).
  assert (alloc_handler local (mkHandler function []) s = Normal tt s1)
    as Hrun1 by (unfold alloc_handler; by rewrite Hl).
  step Hrun1.
  assert (mirrored (heap s1)) as Hm1 by (by apply mirrored_alloc_handler).
  assert (handlers (heap s1) !! local = Some (mkHandler function [])) as Hl1
    by apply lookup_insert_eq.
  pose proof (Event_subscribe_live s1 this _ local _ He Hl1) as Hrun2.
  cbn [m_handler m_function m_subscribedTo app] in Hrun2.
  match type of Hrun2 with _ = Normal tt ?t => set (s2 := t) in * end.
  step Hrun2.
  assert (mirrored (heap s2)) as Hm2.
  { destruct (Event_subscribe_preserves s1 this local Hm1)
      as (s2' & Hrun2' & Hm2' & _); [by eauto..|]. congruence. }
  destruct (Handler_move_ctor_mirrored s2 result local function [this] Hm2)
    as (s3 & Hrun3 & Hw3 & Ht3 & Ho3 & Hf3 & Hlive3 & Hsub3).
  { cbn. rewrite insert_insert_eq. by rewrite lookup_insert_ne. }
  { cbn. rewrite insert_insert_eq. apply lookup_insert_eq. }
  step Hrun3. unfold Handler_dtor.
  destruct (Handler_reset_live s3 local None [] Ho3) as (E4 & Hrun4 & HE4).
  { by intros e ?%elem_of_nil. }
  step Hrun4. unfold free_handler. cbn [heap handlers].
  rewrite lookup_insert_eq, delete_insert_eq. cbn [world]. rewrite Hw3.
  do 3 f_equal.
  - apply map_eq. intros h. destruct (decide (h = local)) as [->|Hhl].
    { rewrite lookup_delete_eq. by rewrite lookup_insert_ne. }
    rewrite lookup_delete_ne by done.
    destruct (decide (h = result)) as [->|Hhr].
    { by rewrite lookup_insert_eq. }
    rewrite Hf3 by done. cbn. by rewrite !lookup_insert_ne.
  - apply map_eq. intros e. rewrite HE4. cbn [occurrences filter length Nat.iter].
    transitivity (events (heap s3) !! e).
    { by destruct (events (heap s3) !! e) as [[?]|]. }
    refine (events_lookup_view
              (mkHeap (handlers (heap s))
                      (<[this := mkEvent (l ++ [result])]> (events (heap s))))
              (heap s3) e _ _).
    + rewrite Hlive3. cbn. rewrite !lookup_insert_is_Some. tauto.
    + rewrite Hsub3. cbn [heap s2].
      rewrite !subscribers_insert. cbn [m_handler].
      rewrite occurrences_cons, occurrences_nil.
      destruct (decide (this = e)) as [->|Hte].
      * rewrite remove_all_app. change [local] with (replicate 1 local).
        rewrite remove_all_replicate_eq, app_nil_r.
        rewrite (remove_all_absent local l); [done|].
        pose proof (mirrored_dead_not_subscriber _ local e Hm Hl) as Hnot.
        by rewrite (subscribers_lookup _ _ _ He) in Hnot.
      * cbn [replicate Nat.add]. rewrite app_nil_r. apply remove_all_absent.
        by apply mirrored_dead_not_subscriber.
Qed.

(** [Event::subscribe(std::function)]: the handler it returns holds the
    function and is subscribed to this event only, the event lists it
    last, and nothing is left of the local it was moved from.  The state
    is the one that constructing the handler in place and subscribing it
    gives, so eliding the copy of the [return] makes no difference. *)
Theorem Event_subscribe_function_returns_subscribed
    s this function local result l :
  mirrored (heap s) →
  events (heap s) !! this = Some (mkEvent l) →
  handlers (heap s) !! local = None →
  handlers (heap s) !! result = None →
  local ≠ result →
  ∃ s', Event_subscribe_function this function local result s
        = Normal tt s' ∧
        bind (Handler_ctor result function)
             (λ _, Event_subscribe this result) s = Normal tt s' ∧
        world s' = world s ∧
        handlers (heap s') =
        <[result := mkHandler function [this]]> (handlers (heap s)) ∧
        events (heap s') =
        <[this := mkEvent (l ++ [result])]> (events (heap s)).
Proof.
  intros Hm He Hl Hr Hne.
  rewrite (Event_subscribe_function_state s this function local result l)
    by done.
  eexists. split; [done|]. split_and!; [|done..].
  unfold Handler_ctor.
  assert (alloc_handler result (mkHandler function []) s =
          Normal tt (mkState (mkHeap (<[result := mkHandler function []]>
                                        (handlers (heap s)))
                                     (events (heap s))) (world s)))
    as Hrun1 by (unfold alloc_handler; by rewrite Hr).
  step Hrun1.
  erewrite Event_subscribe_live; [|exact He|apply lookup_insert_eq].
  cbn. by rewrite insert_insert_eq.
Qed.

(** A scope that only holds the handler returned by [subscribe] leaves
    no trace: after the destructor of that handler the state is the one
    before the call of [subscribe]. *)
Theorem subscription_scope_round_trip s this function local result l :
  mirrored (heap s) →
  events (heap s) !! this = Some (mkEvent l) →
  handlers (heap s) !! local = None →
  handlers (heap s) !! result = None →
  local ≠ result →
  bind (Event_subscribe_function this function local result)
       (λ _, Handler_dtor result) s = Normal tt s.
Proof.
  intros Hm He Hl Hr Hne.
  step (Event_subscribe_function_state s this function local result l
          Hm He Hl Hr Hne).
  unfold Handler_dtor.
  match goal with |- bind _ _ ?t = _ => set (s1 := t) end.
  destruct (Handler_reset_live s1 result function [this])
    as (E' & Hrun & HE').
  { apply lookup_insert_eq. }
  { intros e ->%list_elem_of_singleton. cbn. rewrite lookup_insert_eq. eauto. }
  step Hrun. unfold free_handler. cbn [heap handlers world s1].
  rewrite lookup_insert_eq, !delete_insert_eq, delete_id by done.
  destruct s as [[H E] w]. unfold s1 in HE'.
  cbn [heap handlers events world] in *.
  do 3 f_equal. apply map_eq. intros e. rewrite HE'.
  rewrite occurrences_cons, occurrences_nil.
  destruct (decide (this = e)) as [->|Hte].
  - rewrite lookup_insert_eq, He. cbn. do 2 f_equal.
    rewrite (remove_first_split result l []), app_nil_r; [done|].
    pose proof (mirrored_dead_not_subscriber (mkHeap H E) result e Hm Hr)
      as Hnot.
    by rewrite (subscribers_lookup (mkHeap H E) e (mkEvent l) He) in Hnot.
  - rewrite lookup_insert_ne by done. cbn.
    by destruct (E !! e) as [[?]|].
Qed.

(** ** Reset as a sequence of unsubscriptions *)

Lemma Handler_reset_unfolds s this f v :
  mirrored (heap s) →
  handlers (heap s) !! this = Some (mkHandler f v) →
  ∃ s', Handler_reset this s = Normal tt s' ∧
        for_each v (λ e, Event_unsubscribe e this) s = Normal tt s'.
Proof.
  revert s. induction v as [|e v IH]; intros s Hm Hh.
  - destruct (Handler_reset_mirrored s this f [] Hm Hh) as (E' & Hrun & HE').
    exists s. split; [|done]. rewrite Hrun.
    destruct s as [[H E] w]. cbn [heap handlers events world] in *.
    rewrite insert_id by done. do 3 f_equal.
    apply (events_fmap_id _ _ (λ _, remove_all this)); [done|].
    intros e ev He. apply remove_all_absent.
    pose proof (Hm this e) as Hc. unfold subscribers, subscriptions in Hc.
    cbn in Hc. rewrite He, Hh in Hc. by apply occurrences_zero.
  - destruct (mirrored_event_live _ _ _ e Hm Hh) as [ev He]; [left|].
    assert (this ∈ m_handler ev) as Hin.
    { rewrite <- (subscribers_lookup _ _ _ He).
      apply (mirrored_elem _ _ _ Hm).
      rewrite (subscriptions_lookup _ _ _ Hh). left. }
    pose proof (Event_unsubscribe_present s e ev this _ He Hin Hh) as Hrun1.
    cbn [m_function m_subscribedTo remove_first] in Hrun1.
    rewrite decide_True in Hrun1 by done.
    match type of Hrun1 with _ = Normal tt ?t => set (s1 := t) in * end.
    assert (mirrored (heap s1)) as Hm1.
    { destruct (Event_unsubscribe_preserves s e this Hm) as (s1' & Hr' & Hm');
        [by eauto|]. congruence. }
    assert (handlers (heap s1) !! this = Some (mkHandler f v)) as Hh1
      by apply lookup_insert_eq.
    destruct (IH s1 Hm1 Hh1) as (s' & Hreset1 & Hloop).
    exists s'. split; [|simpl; by step Hrun1].
    destruct (Handler_reset_mirrored s this f (e :: v) Hm Hh)
      as (Ea & Hra & HEa).
    destruct (Handler_reset_mirrored s1 this f v Hm1 Hh1)
      as (Eb & Hrb & HEb).
    rewrite Hra. rewrite Hrb in Hreset1. simplify_eq.
    cbn [heap handlers events world s1]. rewrite insert_insert_eq.
    do 3 f_equal. apply map_eq. intros e0. rewrite HEa, HEb.
    cbn [heap events s1].
    destruct (decide (e = e0)) as [<-|Hne].
    + rewrite lookup_insert_eq, He.
      cbn [fmap option_fmap option_map m_handler].
      by rewrite remove_all_remove_first.
    + by rewrite lookup_insert_ne.
Qed.

Lemma Event_reset_unfolds s this v :
  mirrored (heap s) →
  events (heap s) !! this = Some (mkEvent v) →
  ∃ s', Event_reset this s = Normal tt s' ∧
        for_each v (λ h, Event_unsubscribe this h) s = Normal tt s'.
Proof.
  revert s. induction v as [|h v IH]; intros s Hm He.
  - destruct (Event_reset_mirrored s this [] Hm He) as (H' & Hrun & HH').
    exists s. split; [|done]. rewrite Hrun.
    destruct s as [[H E] w]. cbn [heap handlers events world] in *.
    rewrite insert_id by done. do 2 f_equal. f_equal.
    apply (handlers_fmap_id _ _ (λ _, remove_all this)); [done|].
    intros h hd Hh. apply remove_all_absent.
    pose proof (Hm h this) as Hc. unfold subscribers, subscriptions in Hc.
    cbn in Hc. rewrite He, Hh in Hc. by apply occurrences_zero.
  - destruct (mirrored_handler_live _ _ _ h Hm He) as [[f subs] Hh]; [left|].
    assert (h ∈ m_handler (mkEvent (h :: v))) as Hin by left.
    pose proof (Event_unsubscribe_present s this _ h _ He Hin Hh) as Hrun1.
    cbn [m_handler m_function m_subscribedTo remove_first] in Hrun1.
    rewrite decide_True in Hrun1 by done.
    match type of Hrun1 with _ = Normal tt ?t => set (s1 := t) in * end.
    assert (mirrored (heap s1)) as Hm1.
    { destruct (Event_unsubscribe_preserves s this h Hm) as (s1' & Hr' & Hm');
        [by eauto|]. congruence. }
    assert (events (heap s1) !! this = Some (mkEvent v)) as He1
      by apply lookup_insert_eq.
    destruct (IH s1 Hm1 He1) as (s' & Hreset1 & Hloop).
    exists s'. split; [|simpl; by step Hrun1].
    destruct (Event_reset_mirrored s this (h :: v) Hm He)
      as (Ha & Hra & HHa).
    destruct (Event_reset_mirrored s1 this v Hm1 He1)
      as (Hb & Hrb & HHb).
    rewrite Hra. rewrite Hrb in Hreset1. simplify_eq.
    cbn [heap handlers events world s1]. rewrite insert_insert_eq.
    do 2 f_equal. f_equal. apply map_eq. intros h0. rewrite HHa, HHb.
    cbn [heap handlers s1].
    destruct (decide (h = h0)) as [<-|Hne].
    + rewrite lookup_insert_eq, Hh.
      cbn [fmap option_fmap option_map m_function m_subscribedTo].
      by rewrite remove_all_remove_first.
    + by rewrite lookup_insert_ne.
Qed.

(** A reset is the same as unsubscribing one registration after the
    other: [Handler::reset] ends in the state that calling
    [Event::unsubscribe] on every event of [m_subscribedTo] gives, and
    [Event::reset] in the state that calling [unsubscribe] on every
    handler of [m_handler] gives. *)
Theorem reset_is_unsubscribe_all s :
  mirrored (heap s) →
  (∀ h f v, handlers (heap s) !! h = Some (mkHandler f v) →
     ∃ s', Handler_reset h s = Normal tt s' ∧
           for_each v (λ e, Event_unsubscribe e h) s = Normal tt s') ∧
  (∀ e v, events (heap s) !! e = Some (mkEvent v) →
     ∃ s', Event_reset e s = Normal tt s' ∧
           for_each v (λ h, Event_unsubscribe e h) s = Normal tt s').
Proof.
  intros Hm. split.
  - intros h f v Hh. by apply (Handler_reset_unfolds s h f v).
  - intros e v He. by apply Event_reset_unfolds.
Qed.

(** ** Moving an event, swapping twice *)

(** After [Event(Event&&)] the new event notifies the handlers that the
    source notified, in the same order, and the source notifies nobody. *)
Theorem Event_move_ctor_takes_over s this other v fs :
  mirrored (heap s) →
  events (heap s) !! this = None →
  events (heap s) !! other = Some (mkEvent v) →
  Forall2 (has_function (heap s)) v fs →
  ∃ s', Event_move_ctor this other s = Normal tt s' ∧
        ∀ args,
          Event_invoke other args s' = Normal tt s' ∧
          Event_invoke this args s' =
          pass_outcome (heap s') (fan_out fs args (world s)).
Proof.
  intros Hm Hd Ho Hfs.
  destruct (Event_move_ctor_mirrored s this other v Hm Hd Ho)
    as (s' & Hrun & Hw & Ht' & Ho' & _ & Hfun & _).
  exists s'. split; [done|]. intros args. split.
  - unfold Event_invoke. by step (get_handler_live _ _ _ Ho').
  - rewrite <- Hw. apply (Event_invoke_live _ _ v); [done|].
    eapply Forall2_impl; [exact Hfs|]. intros h f.
    by apply has_function_same_function.
Qed.

(** Swapping two distinct handlers twice gives every handler its members
    back; in every event the entries of the two handlers have moved to
    the end, those of the receiver before those of the argument, and the
    other entries have kept their order. *)
Theorem Handler_swap_twice s this other f1 v1 f2 v2 :
  mirrored (heap s) →
  this ≠ other →
  handlers (heap s) !! this = Some (mkHandler f1 v1) →
  handlers (heap s) !! other = Some (mkHandler f2 v2) →
  ∃ s', bind (Handler_swap this other) (λ _, Handler_swap this other) s
        = Normal tt s' ∧
        world s' = world s ∧
        handlers (heap s') = handlers (heap s) ∧
        ∀ e, subscribers (heap s') e =
             remove_all other (remove_all this (subscribers (heap s) e))
             ++ replicate (occurrences e v1) this
             ++ replicate (occurrences e v2) other.
Proof.
  intros Hm Hne Ht Ho.
  destruct (Handler_swap_subscribers s this other f1 v1 f2 v2 Hm Ht Ho)
    as (s1 & Hrun1 & Hw1 & Ht1 & Ho1 & Hf1 & _ & Hsub1).
  assert (mirrored (heap s1)) as Hm1.
  { destruct (Handler_swap_preserves s this other Hm Hne)
      as (s1' & Hr' & Hm'); [by eauto..|]. congruence. }
  destruct (Handler_swap_subscribers s1 this other f2 v2 f1 v1 Hm1 Ht1 Ho1)
    as (s2 & Hrun2 & Hw2 & Ht2 & Ho2 & Hf2 & _ & Hsub2).
  exists s2. split; [by step Hrun1|]. split_and!.
  - congruence.
  - apply map_eq. intros h.
    destruct (decide (h = this)) as [->|Hht]; [congruence|].
    destruct (decide (h = other)) as [->|Hho]; [congruence|].
    by rewrite Hf2, Hf1.
  - intros e. rewrite Hsub2, Hsub1. f_equal.
    rewrite !remove_all_app.
    rewrite (remove_all_replicate_eq this),
      (remove_all_replicate_ne this other) by done.
    rewrite app_nil_l, (remove_all_replicate_eq other), app_nil_r.
    rewrite (remove_all_absent this).
    + apply remove_all_idemp.
    + intros [_ Hin]%remove_all_elem_ne.
      by apply remove_all_not_elem in Hin.
Qed.

(** ** What a self-exchange leads to *)

Lemma Forall2_impl_elem {A B} (P Q : A → B → Prop) (l : list A)
    (k : list B) :
  Forall2 P l k → (∀ x y, x ∈ l → P x y → Q x y) → Forall2 Q l k.
Proof.
  induction 1 as [|x y l k HP _ IH]; intros Himpl; constructor.
  - apply Himpl; [left|done].
  - apply IH. intros x' y' Hin. apply Himpl. by right.
Qed.

(** A handler that was swapped with itself while subscribed and is then
    destroyed stays listed by its events: the destructor removes only
    half of the doubled entries.  The event then holds a pointer to no
    live object, and a notification pass that reaches this entry has
    undefined behaviour. *)
Theorem self_swap_then_dtor_dangles s h f v e :
  mirrored (heap s) →
  handlers (heap s) !! h = Some (mkHandler f v) →
  e ∈ v →
  ∃ s', bind (Handler_swap h h) (λ _, Handler_dtor h) s = Normal tt s' ∧
        handlers (heap s') !! h = None ∧
        subscribers (heap s') e =
        remove_all h (subscribers (heap s) e)
        ++ replicate (occurrences e v) h ∧
        h ∈ subscribers (heap s') e ∧
        ∀ fs args w1,
          Forall2 (has_function (heap s))
                  (remove_all h (subscribers (heap s) e)) fs →
          fan_out fs args (world s) = (None, w1) →
          Event_invoke e args s' = Undefined.
Proof.
  intros Hm Hh He.
  destruct (Handler_swap_subscribers s h h f v f v Hm Hh Hh)
    as (s1 & Hrun1 & Hw1 & Hh1 & _ & Hf1 & Hlive1 & Hsub1).
  destruct (Handler_reset_live s1 h f v Hh1) as (E2 & Hrun2 & HE2).
  { intros e0 He0. apply Hlive1. by eapply mirrored_event_live. }
  assert (0 < occurrences e v) as Hpos by (by apply occurrences_pos).
  set (R := remove_all h (subscribers (heap s) e)).
  assert (E2 !! e = Some (mkEvent (R ++ replicate (occurrences e v) h)))
    as He2.
  { rewrite HE2.
    destruct (mirrored_event_live _ _ _ e Hm Hh He) as [ev Hev].
    destruct (proj2 (Hlive1 e)) as [ev1 Hev1]; [by eauto|].
    rewrite Hev1. cbn [fmap option_fmap option_map]. do 2 f_equal.
    rewrite <- (subscribers_lookup _ _ _ Hev1), Hsub1.
    rewrite remove_all_idemp, <- replicate_add.
    rewrite iter_remove_first_end;
      [|apply remove_all_not_elem|lia].
    do 2 f_equal. lia. }
  eexists. split.
  { step Hrun1. unfold Handler_dtor. step Hrun2.
    unfold free_handler. cbn [heap handlers].
    by rewrite lookup_insert_eq. }
  cbn [heap handlers events world].
  assert (subscribers
            (mkHeap (delete h (<[h := mkHandler f []]> (handlers (heap s1))))
                    E2) e
          = R ++ replicate (occurrences e v) h) as Hsub2
    by (unfold subscribers; cbn [events]; by rewrite He2).
  split_and!.
  - apply lookup_delete_eq.
  - done.
  - rewrite Hsub2. apply elem_of_app. right.
    apply elem_of_replicate. split; [done|lia].
  - intros fs args w1 Hfs Hpass. unfold Event_invoke.
    match goal with |- bind _ _ ?t = _ =>
      rewrite (bind_Normal _ _ _ _ _ (get_handler_live t e _ He2)) end.
    cbn [m_handler]. rewrite for_each_app.
    match goal with |- bind _ _ (mkState ?σ' _) = _ => set (σ2 := σ') end.
    assert (Forall2 (has_function σ2) R fs) as Hfs2.
    { eapply Forall2_impl_elem; [exact Hfs|].
      intros h' f' [Hne _]%remove_all_elem_ne [v' Hv']. exists v'.
      unfold σ2. cbn [handlers].
      rewrite lookup_delete_ne, lookup_insert_ne by done.
      by rewrite Hf1. }
    pose proof (for_each_invoke σ2 R fs args Hfs2 (world s1)) as Hpre.
    rewrite Hw1, Hpass in Hpre. rewrite Hw1. step Hpre.
    destruct (occurrences e v) as [|k]; [lia|].
    cbn [replicate for_each]. unfold bind at 1.
    unfold Handler_invoke, bind, get_function, bind, load_handler.
    cbn [heap handlers σ2]. by rewrite lookup_delete_eq.
Qed.

(** ** Handlers bound to a member function *)

(** A handler constructed from an object and a member function, by
    either overload, starts without subscriptions; invoking it calls the
    member function on that object, drops the value it returns and lets
    an exception it raises pass.  It never holds the empty function. *)
Theorem Handler_ctor_member_invokes {TReturn} s this object
    (func : member_function TReturn) :
  handlers (heap s) !! this = None →
  ∃ s', Handler_ctor_member this object func s = Normal tt s' ∧
        Handler_ctor_const_member this object func s = Normal tt s' ∧
        subscriptions (heap s') this = [] ∧
        ∀ args w,
          Handler_invoke this args (mkState (heap s') w) =
          match func object args w with
          | MemberReturns _ w' => Normal tt (mkState (heap s') w')
          | MemberRaises x w' =>
              Throws (user_exception x) (mkState (heap s') w')
          end.
Proof.
  intros Hd.
  unfold Handler_ctor_const_member, Handler_ctor_member, alloc_handler.
  rewrite Hd. eexists. split_and!; [done..| |].
  - cbn [heap]. by rewrite subscriptions_insert, decide_True.
  - intros args w.
    rewrite (Handler_invoke_live _ _ _ (Some (bound_member object func)))
      by (exists []; apply lookup_insert_eq).
    unfold bound_member. cbn [fan_out].
    by destruct (func object args w).
Qed.

End Execution.

(** ** The theorems at concrete stores *)

Lemma Event_unsubscribe_removes_first_witness :
  let s := Scenario.two_subscribed in
  events (heap s) !! 0 = Some (mkEvent [1; 2]) ∧
  (1 ∈ [1; 2] → is_Some (handlers (heap s) !! 1)) ∧
  (1 ∉ [1; 2] → Event_unsubscribe 0 1 s = Normal tt s) ∧
  (1 ∈ [1; 2] →
   ∃ f subs,
     handlers (heap s) !! 1 = Some (mkHandler f subs) ∧
     let s' :=
       mkState (mkHeap (<[1 := mkHandler f (remove_first 0 subs)]>
                          (handlers (heap s)))
                       (<[0 := mkEvent (remove_first 1 [1; 2])]>
                          (events (heap s))))
               (world s) in
     Event_unsubscribe 0 1 s = Normal tt s' ∧
     (1 ∉ remove_first 1 [1; 2] → Event_unsubscribe 0 1 s' = Normal tt s')).
Proof.
  intros s.
  assert (events (heap s) !! 0 = Some (mkEvent [1; 2])) as H1
    by reflexivity.
  assert (1 ∈ [1; 2] → is_Some (handlers (heap s) !! 1)) as H2
    by (intros _; eexists; reflexivity).
  exact (conj H1 (conj H2 (Event_unsubscribe_removes_first s 0 [1; 2] 1 H1 H2))).
Defined.

(** *** The tests of the repository, run on the model *)

Example ManualSubsribeUnsubscribe_counts :
  Scenario.counters (Scenario.ManualSubsribeUnsubscribe Scenario.start)
  = Some [(2, 4%Z); (1, 7%Z)].
Proof. vm_compute. reflexivity. Qed.

Example HandlerScope_counts :
  Scenario.counters (Scenario.HandlerScope Scenario.start)
  = Some [(2, 3%Z); (1, 4%Z)].
Proof. vm_compute. reflexivity. Qed.

Example HandlerReset_counts :
  Scenario.counters (Scenario.HandlerReset Scenario.start)
  = Some [(1, 2%Z)].
Proof. vm_compute. reflexivity. Qed.

Example EventReset_counts :
  Scenario.counters (Scenario.EventReset Scenario.start)
  = Some [(2, 1%Z); (1, 1%Z)].
Proof. vm_compute. reflexivity. Qed.

Example two_subscribed_built :
  Scenario.build_two_subscribed Scenario.start
  = Normal tt Scenario.two_subscribed.
Proof. vm_compute. reflexivity. Qed.

Example one_subscribed_built :
  Scenario.script [ Event_ctor 0;
                    Handler_ctor 1 (Some (Scenario.add_to 1));
                    Event_subscribe 0 1 ] Scenario.start
  = Normal tt Scenario.one_subscribed.
Proof. vm_compute. reflexivity. Qed.

Lemma two_subscribed_mirrored : mirrored (heap Scenario.two_subscribed).
Proof. apply mirroredb_sound. vm_compute. reflexivity. Qed.

Lemma three_subscribed_mirrored : mirrored (heap Scenario.three_subscribed).
Proof. apply mirroredb_sound. vm_compute. reflexivity. Qed.

Lemma one_subscribed_mirrored : mirrored (heap Scenario.one_subscribed).
Proof. apply mirroredb_sound. vm_compute. reflexivity. Qed.

Lemma two_pairs_mirrored : mirrored (heap Scenario.two_pairs).
Proof. apply mirroredb_sound. vm_compute. reflexivity. Qed.

(** *** The call log of a notification pass *)

Lemma fan_out_record (v : list nat) (args : Z) (w : list (nat * Z)) :
  fan_out (map (λ h, Some (CallLog.record h)) v) args w
  = (None, w ++ map (λ h, (h, args)) v).
Proof.
  revert w. induction v as [|h v IH]; intros w; simpl.
  - by rewrite app_nil_r.
  - unfold CallLog.record at 1. rewrite IH. by rewrite <- app_assoc.
Qed.

(** When every reaction logs its call, a pass adds to the log one call per
    entry of [m_handler], in the order of the vector. *)
Lemma Event_invoke_call_log (s : @State Z (list (nat * Z)) Empty_set)
    (e : nat) (v : list nat) (args : Z) :
  events (heap s) !! e = Some (mkEvent v) →
  (∀ h, h ∈ v → has_function (heap s) h (Some (CallLog.record h))) →
  Event_invoke e args s =
  Normal tt (mkState (heap s) (world s ++ map (λ h, (h, args)) v)).
Proof.
  intros He Hrec.
  rewrite (Event_invoke_live s e v (map (λ h, Some (CallLog.record h)) v));
    [by rewrite fan_out_record|done|].
  clear He. induction v as [|h v IH]; constructor.
  - apply Hrec. left.
  - apply IH. intros h' Hh'. apply Hrec. by right.
Qed.

(** *** Move and swap at concrete stores *)

(** C1 (what the code does). A store that satisfies the invariant does
    not satisfy it any more after a handler is move-assigned to itself:
    the event lists the handler twice, the handler lists the event once. *)
Theorem self_move_assignment_breaks_mirror :
  mirrored (heap Scenario.one_subscribed) ∧
  admissible (heap Scenario.one_subscribed) (Handler_move_assign_op 1 1) ∧
  ∃ s', perform (Handler_move_assign_op 1 1) Scenario.one_subscribed
        = Normal tt s' ∧
        subscribers (heap s') 0 = [1; 1] ∧
        subscriptions (heap s') 1 = [0] ∧
        ¬ mirrored (heap s').
Proof.
  split; [exact one_subscribed_mirrored|].
  split; [split; eexists; reflexivity|].
  eexists. split; [vm_compute; reflexivity|].
  split; [reflexivity|]. split; [reflexivity|].
  intros Hm. specialize (Hm 1 0). vm_compute in Hm. discriminate.
Qed.

(** C2 fails as stated: after the move assignment [h1 = std::move(h2)] of
    two subscribed handlers the moved-from [h2] is not empty, it holds the
    subscription that [h1] had. *)
Lemma Handler_move_assign_source_not_empty :
  mirrored (heap Scenario.two_pairs) ∧
  ∃ s', Handler_move_assign 1 2 Scenario.two_pairs = Normal tt s' ∧
        subscriptions (heap s') 2 = [0] ∧
        subscribers (heap s') 0 = [2] ∧
        subscriptions (heap s') 2 ≠ [].
Proof.
  split; [exact two_pairs_mirrored|].
  eexists. split; [vm_compute; reflexivity|].
  split; [reflexivity|]. split; [reflexivity|]. discriminate.
Qed.

Lemma move_transfers_subscriptions_witness :
  let s := Scenario.two_pairs in
  mirrored (heap s) ∧
  (∃ s', Handler_move_ctor 3 1 s = Normal tt s' ∧
         handlers (heap s') !! 3
         = Some (mkHandler (Some (Scenario.add_to 1)) [0]) ∧
         handlers (heap s') !! 1 = Some (mkHandler None []) ∧
         ∀ e, subscribers (heap s') e =
              remove_all 1 (subscribers (heap s) e)
              ++ replicate (occurrences e [0]) 3) ∧
  (∃ s', Event_move_ctor 2 0 s = Normal tt s' ∧
         events (heap s') !! 2 = Some (mkEvent [1]) ∧
         events (heap s') !! 0 = Some (mkEvent []) ∧
         ∀ h, subscriptions (heap s') h =
              remove_all 0 (subscriptions (heap s) h)
              ++ replicate (occurrences h [1]) 2).
Proof.
  intros s.
  assert (mirrored (heap s)) as Hm
    by (apply mirroredb_sound; vm_compute; reflexivity).
  split; [exact Hm|].
  destruct (move_transfers_subscriptions s Hm) as (Hhc & _ & Hec & _).
  split.
  - apply (Hhc 3 1 (Some (Scenario.add_to 1)) [0]); reflexivity.
  - apply (Hec 2 0 [1]); reflexivity.
Defined.

(** C10 fails as stated: after [h1.swap(h2)] of two handlers subscribed to
    the same event, [h1] is subscribed to that event and is not the last
    one in its order, [h2] is. *)
Lemma Handler_swap_receiver_not_last :
  mirrored (heap Scenario.three_subscribed) ∧
  ∃ s', Handler_swap 1 2 Scenario.three_subscribed = Normal tt s' ∧
        subscribers (heap s') 0 = [3; 1; 2] ∧
        subscriptions (heap s') 1 = [0] ∧
        last (subscribers (heap s') 0) ≠ Some 1.
Proof.
  split; [exact three_subscribed_mirrored|].
  eexists. split; [vm_compute; reflexivity|].
  split; [reflexivity|]. split; [reflexivity|]. discriminate.
Qed.

Lemma Handler_swap_appends_at_end_witness :
  let s := Scenario.three_subscribed in
  mirrored (heap s) ∧
  1 ≠ 2 ∧
  handlers (heap s) !! 1 = Some (mkHandler (Some (Scenario.add_to 1)) [0]) ∧
  handlers (heap s) !! 2 = Some (mkHandler (Some (Scenario.add_to 2)) [0]) ∧
  ∃ s', Handler_swap 1 2 s = Normal tt s' ∧
        subscriptions (heap s') 1 = [0] ∧
        subscriptions (heap s') 2 = [0] ∧
        (∀ e, subscribers (heap s') e =
              remove_all 2 (remove_all 1 (subscribers (heap s) e))
              ++ replicate (occurrences e [0]) 1
              ++ replicate (occurrences e [0]) 2) ∧
        (∀ e, e ∈ [0] → last (subscribers (heap s') e) = Some 2) ∧
        (∀ e, e ∈ [0] → e ∉ [0] → last (subscribers (heap s') e) = Some 1).
Proof.
  intros s.
  assert (mirrored (heap s)) as Hm
    by (apply mirroredb_sound; vm_compute; reflexivity).
  assert (1 ≠ 2) as Hne by lia.
  assert (handlers (heap s) !! 1
          = Some (mkHandler (Some (Scenario.add_to 1)) [0])) as H1
    by reflexivity.
  assert (handlers (heap s) !! 2
          = Some (mkHandler (Some (Scenario.add_to 2)) [0])) as H2
    by reflexivity.
  split_and!; [done..|].
  exact (Handler_swap_appends_at_end s 1 2 _ _ _ _ Hm Hne H1 H2).
Defined.

Lemma self_swap_doubles_registrations_witness :
  let s := Scenario.one_subscribed in
  mirrored (heap s) ∧
  (∃ s', Handler_swap 1 1 s = Normal tt s' ∧
         handlers (heap s') !! 1
         = Some (mkHandler (Some (Scenario.add_to 1)) [0]) ∧
         ∀ e, occurrences 1 (subscribers (heap s') e) =
              2 * occurrences e (subscriptions (heap s') 1)) ∧
  (∃ s', Event_swap 0 0 s = Normal tt s' ∧
         events (heap s') !! 0 = Some (mkEvent [1]) ∧
         ∀ h, occurrences 0 (subscriptions (heap s') h) =
              2 * occurrences h (subscribers (heap s') 0)).
Proof.
  intros s.
  assert (mirrored (heap s)) as Hm
    by (apply mirroredb_sound; vm_compute; reflexivity).
  split; [exact Hm|].
  destruct (self_swap_doubles_registrations s Hm) as [Hh He].
  split.
  - apply (Hh 1 (Some (Scenario.add_to 1)) [0]). reflexivity.
  - apply (He 0 [1]). reflexivity.
Defined.

Lemma moved_from_Handler_invoke_throws_witness :
  let s := Scenario.one_subscribed in
  mirrored (heap s) ∧
  handlers (heap s) !! 2 = None ∧
  handlers (heap s) !! 1 = Some (mkHandler (Some (Scenario.add_to 1)) [0]) ∧
  ∃ s', Handler_move_ctor 2 1 s = Normal tt s' ∧
        handlers (heap s') !! 1 = Some (mkHandler None []) ∧
        Handler_invoke 1 5%Z s' = Throws bad_function_call s'.
Proof.
  intros s.
  assert (mirrored (heap s)) as Hm
    by (apply mirroredb_sound; vm_compute; reflexivity).
  assert (handlers (heap s) !! 2 = None) as H2 by reflexivity.
  assert (handlers (heap s) !! 1
          = Some (mkHandler (Some (Scenario.add_to 1)) [0])) as H1
    by reflexivity.
  split_and!; [done..|].
  exact (moved_from_Handler_invoke_throws s 2 1 _ _ 5%Z Hm H2 H1).
Defined.

(** *** Invocation, subscription and reset at concrete stores *)

Lemma Event_invoke_in_subscription_order_witness :
  let s := Scenario.two_subscribed in
  let fs := [Some (Scenario.add_to 1); Some (Scenario.add_to 2)] in
  events (heap s) !! 0 = Some (mkEvent [1; 2]) ∧
  Forall2 (has_function (heap s)) [1; 2] fs ∧
  is_Some (handlers (heap s) !! 1) ∧
  Event_invoke 0 5%Z s
  = pass_outcome (heap s) (fan_out fs 5%Z (world s)) ∧
  ∃ s', bind (Event_unsubscribe 0 1) (λ _, Event_subscribe 0 1) s
        = Normal tt s' ∧
        world s' = world s ∧
        events (heap s') !! 0 = Some (mkEvent (remove_first 1 [1; 2] ++ [1])) ∧
        ∀ h' f', has_function (heap s') h' f' ↔ has_function (heap s) h' f'.
Proof.
  intros s fs.
  assert (events (heap s) !! 0 = Some (mkEvent [1; 2])) as H1 by reflexivity.
  assert (Forall2 (has_function (heap s)) [1; 2] fs) as H2
    by (repeat constructor; eexists; reflexivity).
  assert (is_Some (handlers (heap s) !! 1)) as H3 by (eexists; reflexivity).
  split_and!; [done..| |];
    apply (Event_invoke_in_subscription_order s 0 [1; 2] fs 1 5%Z H1 H2 H3).
Defined.

Lemma reset_severs_both_sides_witness :
  let s := Scenario.two_subscribed in
  mirrored (heap s) ∧
  (∃ s', Handler_reset 1 s = Normal tt s' ∧
         world s' = world s ∧
         handlers (heap s')
         = <[1 := mkHandler (Some (Scenario.add_to 1)) []]> (handlers (heap s)) ∧
         (∀ e, events (heap s') !! e =
               (λ ev, mkEvent (remove_all 1 (m_handler ev)))
                 <$> events (heap s) !! e) ∧
         Handler_reset 1 s' = Normal tt s' ∧
         ([0] = [] → s' = s)) ∧
  (∃ s', Event_reset 0 s = Normal tt s' ∧
         world s' = world s ∧
         events (heap s') = <[0 := mkEvent []]> (events (heap s)) ∧
         (∀ h, handlers (heap s') !! h =
               (λ hd, mkHandler (m_function hd)
                        (remove_all 0 (m_subscribedTo hd)))
                 <$> handlers (heap s) !! h) ∧
         Event_reset 0 s' = Normal tt s' ∧
         ([1; 2] = [] → s' = s)).
Proof.
  intros s.
  assert (mirrored (heap s)) as Hm
    by (apply mirroredb_sound; vm_compute; reflexivity).
  split; [exact Hm|].
  destruct (reset_severs_both_sides s Hm) as [Hh He].
  split.
  - apply (Hh 1 (Some (Scenario.add_to 1)) [0]). reflexivity.
  - apply (He 0 [1; 2]). reflexivity.
Defined.

Lemma Event_subscribe_twice_witness :
  let s := Scenario.two_subscribed in
  events (heap s) !! 0 = Some (mkEvent [1; 2]) ∧
  handlers (heap s) !! 2 = Some (mkHandler (Some (Scenario.add_to 2)) [0]) ∧
  ∃ s1 s2 s3 s4,
    Event_subscribe 0 2 s = Normal tt s1 ∧
    events (heap s1) !! 0 = Some (mkEvent ([1; 2] ++ [2])) ∧
    handlers (heap s1) !! 2
    = Some (mkHandler (Some (Scenario.add_to 2)) ([0] ++ [0])) ∧
    Event_subscribe 0 2 s1 = Normal tt s2 ∧
    events (heap s2) !! 0 = Some (mkEvent ([1; 2] ++ [2; 2])) ∧
    handlers (heap s2) !! 2
    = Some (mkHandler (Some (Scenario.add_to 2)) ([0] ++ [0; 0])) ∧
    (∀ fs args, Forall2 (has_function (heap s)) [1; 2] fs →
       Event_invoke 0 args s2 =
       pass_outcome (heap s2)
         (fan_out (fs ++ [Some (Scenario.add_to 2); Some (Scenario.add_to 2)])
            args (world s))) ∧
    Event_unsubscribe 0 2 s2 = Normal tt s3 ∧
    occurrences 2 (subscribers (heap s3) 0) = occurrences 2 [1; 2] + 1 ∧
    occurrences 0 (subscriptions (heap s3) 2) = occurrences 0 [0] + 1 ∧
    Event_unsubscribe 0 2 s3 = Normal tt s4 ∧
    occurrences 2 (subscribers (heap s4) 0) = occurrences 2 [1; 2] ∧
    occurrences 0 (subscriptions (heap s4) 2) = occurrences 0 [0].
Proof.
  intros s.
  assert (events (heap s) !! 0 = Some (mkEvent [1; 2])) as H1 by reflexivity.
  assert (handlers (heap s) !! 2
          = Some (mkHandler (Some (Scenario.add_to 2)) [0])) as H2
    by reflexivity.
  split_and!; [done..|].
  exact (Event_subscribe_twice s 0 [1; 2] 2 _ [0] H1 H2).
Defined.

Lemma Event_invoke_propagates_failure_witness :
  let s := Scenario.second_fails in
  let w1 : gmap nat Z := {[ 1 := 5%Z ]} in
  events (heap s) !! 0 = Some (mkEvent ([1] ++ 2 :: [3])) ∧
  Forall2 (has_function (heap s)) [1] [Some (Scenario.add_to 1)] ∧
  fan_out [Some (Scenario.add_to 1)] 5%Z (world s) = (None, w1) ∧
  handlers (heap s) !! 2 = Some (mkHandler (Some (Scenario.failing 7)) [0]) ∧
  Scenario.failing 7 5%Z w1 = Raises 7 w1 ∧
  Event_invoke 0 5%Z s = Throws (user_exception 7) (mkState (heap s) w1) ∧
  ∀ e' args' s0,
    match @Event_invoke Z (gmap nat Z) nat e' args' s0 with
    | Normal _ s' | Throws _ s' => heap s' = heap s0
    | Undefined => True
    end.
Proof.
  intros s w1.
  assert (events (heap s) !! 0 = Some (mkEvent ([1] ++ 2 :: [3]))) as H1
    by reflexivity.
  assert (Forall2 (has_function (heap s)) [1] [Some (Scenario.add_to 1)])
    as H2 by (repeat constructor; eexists; reflexivity).
  assert (fan_out [Some (Scenario.add_to 1)] 5%Z (world s) = (None, w1)) as H3
    by reflexivity.
  assert (handlers (heap s) !! 2
          = Some (mkHandler (Some (Scenario.failing 7)) [0])) as H4
    by reflexivity.
  assert (Scenario.failing 7 5%Z w1 = Raises 7 w1) as H5 by reflexivity.
  split_and!; [done..| |];
    apply (Event_invoke_propagates_failure s 0 5%Z [1] 2 [3] _ _ _ w1 7 w1
             H1 H2 H3 H4 H5).
Defined.

(** *** The remaining tests and the demonstration program on the model *)

Example Invoke_counts :
  Scenario.counters (Scenario.Invoke Scenario.start) = Some [(1, 1%Z)].
Proof. vm_compute. reflexivity. Qed.

Example EventScope_leaves_nothing :
  Scenario.EventScope Scenario.start
  = Normal tt (mkState (mkHeap ∅ ∅) {[ 1 := 1%Z ]}).
Proof. vm_compute. reflexivity. Qed.

Example HandlerClassConstructor_val :
  Scenario.counters (Scenario.HandlerClassConstructor Scenario.start)
  = Some [(5, 2%Z)].
Proof. vm_compute. reflexivity. Qed.

(** [main] prints [1testFunc], [1testFunc2] and [2testFunc] and nothing
    after [myHand.reset()]; at the end no object is left. *)
Example demo_main_output :
  Demo.main (mkState (mkHeap ∅ ∅) [])
  = Normal tt
      (mkState (mkHeap ∅ ∅)
         [(1%Z, Demo.testFunc_name); (1%Z, Demo.testFunc2_name);
          (2%Z, Demo.testFunc_name)]).
Proof. vm_compute. reflexivity. Qed.

(** *** The further properties at concrete stores *)

Lemma one_subscribed_reachable : reachable Scenario.one_subscribed.
Proof.
  pose (s_a := mkState (mkHeap (∅ : gmap nat (@Handler Z (gmap nat Z) nat))
                               {[ 0 := mkEvent [] ]})
                       (∅ : gmap nat Z)).
  pose (s_b := mkState (mkHeap {[ 1 := mkHandler (Some (Scenario.add_to 1)) [] ]}
                               {[ 0 := mkEvent [] ]})
                       (∅ : gmap nat Z)).
  apply (reachable_perform s_b (Event_subscribe_op 0 1)).
  - apply (reachable_perform s_a (Handler_ctor_op 1 (Some (Scenario.add_to 1)))).
    + apply (reachable_perform (mkState (mkHeap ∅ ∅) ∅) (Event_ctor_op 0)).
      * apply reachable_start.
      * intros [x Hx]. discriminate Hx.
      * intros [].
      * vm_compute. reflexivity.
    + intros [x Hx]. discriminate Hx.
    + intros [].
    + vm_compute. reflexivity.
  - split; eexists; reflexivity.
  - intros [].
  - vm_compute. reflexivity.
Qed.

Lemma mirrored_preserved_witness :
  let s := Scenario.two_subscribed in
  let o : @operation Z (gmap nat Z) nat := Handler_swap_op 1 2 in
  mirrored (heap s) ∧
  admissible (heap s) o ∧
  ¬ self_exchange o ∧
  ∃ s', perform o s = Normal tt s' ∧ mirrored (heap s').
Proof.
  intros s o.
  assert (mirrored (heap s)) as Hm
    by (apply mirroredb_sound; vm_compute; reflexivity).
  assert (admissible (heap s) o) as Ha by (split; eexists; reflexivity).
  assert (¬ self_exchange o) as Hs by (cbn; lia).
  split_and!; [done..|].
  exact (mirrored_preserved s o Hm Ha Hs).
Defined.

Lemma reachable_mirrored_witness :
  reachable Scenario.one_subscribed ∧ mirrored (heap Scenario.one_subscribed).
Proof.
  split; [exact one_subscribed_reachable|].
  exact (reachable_mirrored _ one_subscribed_reachable).
Defined.

Lemma reachable_total_witness :
  let s := Scenario.one_subscribed in
  let o : @operation Z (gmap nat Z) nat := Handler_dtor_op 1 in
  reachable s ∧
  admissible (heap s) o ∧
  ¬ self_exchange o ∧
  ∃ s', perform o s = Normal tt s' ∧ reachable s'.
Proof.
  intros s o.
  assert (admissible (heap s) o) as Ha by (eexists; reflexivity).
  assert (¬ self_exchange o) as Hs by (intros []).
  split_and!; [exact one_subscribed_reachable|done..|].
  exact (reachable_total s o one_subscribed_reachable Ha Hs).
Defined.

Lemma Handler_dtor_unsubscribes_witness :
  let s := Scenario.two_subscribed in
  mirrored (heap s) ∧
  handlers (heap s) !! 2 = Some (mkHandler (Some (Scenario.add_to 2)) [0]) ∧
  ∃ s', Handler_dtor 2 s = Normal tt s' ∧
        world s' = world s ∧
        handlers (heap s') = delete 2 (handlers (heap s)) ∧
        (∀ e, events (heap s') !! e =
              (λ ev, mkEvent (remove_all 2 (m_handler ev)))
                <$> events (heap s) !! e) ∧
        mirrored (heap s') ∧
        ∀ e l fs args,
          events (heap s) !! e = Some (mkEvent l) →
          Forall2 (has_function (heap s)) l fs →
          Event_invoke e args s' =
          pass_outcome (heap s')
            (fan_out (functions_without 2 l fs) args (world s)).
Proof.
  intros s.
  assert (mirrored (heap s)) as Hm
    by (apply mirroredb_sound; vm_compute; reflexivity).
  assert (handlers (heap s) !! 2
          = Some (mkHandler (Some (Scenario.add_to 2)) [0])) as H2
    by reflexivity.
  split_and!; [done..|].
  exact (Handler_dtor_unsubscribes s 2 _ _ Hm H2).
Defined.

Lemma Event_dtor_unsubscribes_witness :
  let s := Scenario.two_subscribed in
  mirrored (heap s) ∧
  events (heap s) !! 0 = Some (mkEvent [1; 2]) ∧
  ∃ s', Event_dtor 0 s = Normal tt s' ∧
        world s' = world s ∧
        events (heap s') = delete 0 (events (heap s)) ∧
        (∀ h, handlers (heap s') !! h =
              (λ hd, mkHandler (m_function hd)
                       (remove_all 0 (m_subscribedTo hd)))
                <$> handlers (heap s) !! h) ∧
        mirrored (heap s').
Proof.
  intros s.
  assert (mirrored (heap s)) as Hm
    by (apply mirroredb_sound; vm_compute; reflexivity).
  assert (events (heap s) !! 0 = Some (mkEvent [1; 2])) as H0 by reflexivity.
  split_and!; [done..|].
  exact (Event_dtor_unsubscribes s 0 _ Hm H0).
Defined.

Lemma Handler_reset_silences_witness :
  let s := Scenario.two_subscribed in
  mirrored (heap s) ∧
  handlers (heap s) !! 1 = Some (mkHandler (Some (Scenario.add_to 1)) [0]) ∧
  ∃ s', Handler_reset 1 s = Normal tt s' ∧
        world s' = world s ∧
        (∀ e l fs args,
           events (heap s) !! e = Some (mkEvent l) →
           Forall2 (has_function (heap s)) l fs →
           Event_invoke e args s' =
           pass_outcome (heap s')
             (fan_out (functions_without 1 l fs) args (world s))) ∧
        ∀ args, Handler_invoke 1 args s' =
                pass_outcome (heap s')
                  (fan_out [Some (Scenario.add_to 1)] args (world s)).
Proof.
  intros s.
  assert (mirrored (heap s)) as Hm
    by (apply mirroredb_sound; vm_compute; reflexivity).
  assert (handlers (heap s) !! 1
          = Some (mkHandler (Some (Scenario.add_to 1)) [0])) as H1
    by reflexivity.
  split_and!; [done..|].
  exact (Handler_reset_silences s 1 _ _ Hm H1).
Defined.

Lemma Event_reset_keeps_handlers_usable_witness :
  let s := Scenario.two_subscribed in
  mirrored (heap s) ∧
  events (heap s) !! 0 = Some (mkEvent [1; 2]) ∧
  ∃ s', Event_reset 0 s = Normal tt s' ∧
        (∀ args, Event_invoke 0 args s' = Normal tt s') ∧
        (∀ h f, has_function (heap s') h f ↔ has_function (heap s) h f) ∧
        ∀ h, h ∈ [1; 2] →
             ∃ s'', Event_subscribe 0 h s' = Normal tt s'' ∧
                    subscribers (heap s'') 0 = [h] ∧
                    subscriptions (heap s'') h =
                    remove_all 0 (subscriptions (heap s) h) ++ [0].
Proof.
  intros s.
  assert (mirrored (heap s)) as Hm
    by (apply mirroredb_sound; vm_compute; reflexivity).
  assert (events (heap s) !! 0 = Some (mkEvent [1; 2])) as H0 by reflexivity.
  split_and!; [done..|].
  exact (Event_reset_keeps_handlers_usable s 0 _ Hm H0).
Defined.

Lemma Event_subscribe_function_returns_subscribed_witness :
  let s := Scenario.one_subscribed in
  let f := Some (Scenario.add_to 2) in
  mirrored (heap s) ∧
  events (heap s) !! 0 = Some (mkEvent [1]) ∧
  handlers (heap s) !! 11 = None ∧
  handlers (heap s) !! 2 = None ∧
  11 ≠ 2 ∧
  ∃ s', Event_subscribe_function 0 f 11 2 s = Normal tt s' ∧
        bind (Handler_ctor 2 f) (λ _, Event_subscribe 0 2) s = Normal tt s' ∧
        world s' = world s ∧
        handlers (heap s') = <[2 := mkHandler f [0]]> (handlers (heap s)) ∧
        events (heap s') = <[0 := mkEvent ([1] ++ [2])]> (events (heap s)).
Proof.
  intros s f.
  assert (mirrored (heap s)) as Hm
    by (apply mirroredb_sound; vm_compute; reflexivity).
  assert (events (heap s) !! 0 = Some (mkEvent [1])) as H0 by reflexivity.
  assert (handlers (heap s) !! 11 = None) as Hl by reflexivity.
  assert (handlers (heap s) !! 2 = None) as Hr by reflexivity.
  assert (11 ≠ 2) as Hne by lia.
  split_and!; [done..|].
  exact (Event_subscribe_function_returns_subscribed s 0 f 11 2 [1]
           Hm H0 Hl Hr Hne).
Defined.

Lemma subscription_scope_round_trip_witness :
  let s := Scenario.one_subscribed in
  let f := Some (Scenario.add_to 2) in
  mirrored (heap s) ∧
  events (heap s) !! 0 = Some (mkEvent [1]) ∧
  handlers (heap s) !! 11 = None ∧
  handlers (heap s) !! 2 = None ∧
  11 ≠ 2 ∧
  bind (Event_subscribe_function 0 f 11 2) (λ _, Handler_dtor 2) s
  = Normal tt s.
Proof.
  intros s f.
  assert (mirrored (heap s)) as Hm
    by (apply mirroredb_sound; vm_compute; reflexivity).
  assert (events (heap s) !! 0 = Some (mkEvent [1])) as H0 by reflexivity.
  assert (handlers (heap s) !! 11 = None) as Hl by reflexivity.
  assert (handlers (heap s) !! 2 = None) as Hr by reflexivity.
  assert (11 ≠ 2) as Hne by lia.
  split_and!; [done..|].
  exact (subscription_scope_round_trip s 0 f 11 2 [1] Hm H0 Hl Hr Hne).
Defined.

Lemma subscribe_unsubscribe_round_trip_witness :
  let s := Scenario.two_pairs in
  events (heap s) !! 0 = Some (mkEvent [1]) ∧
  handlers (heap s) !! 2 = Some (mkHandler (Some (Scenario.add_to 2)) [1]) ∧
  (2 ∉ [1]) ∧
  (0 ∉ [1]) ∧
  bind (Event_subscribe 0 2) (λ _, Event_unsubscribe 0 2) s = Normal tt s.
Proof.
  intros s.
  assert (events (heap s) !! 0 = Some (mkEvent [1])) as H0 by reflexivity.
  assert (handlers (heap s) !! 2
          = Some (mkHandler (Some (Scenario.add_to 2)) [1])) as H2
    by reflexivity.
  assert (2 ∉ [1]) as Hv by (intros ?%list_elem_of_singleton; lia).
  assert (0 ∉ [1]) as Hs by (intros ?%list_elem_of_singleton; lia).
  split_and!; [done..|].
  exact (subscribe_unsubscribe_round_trip s 0 [1] 2 _ [1] H0 H2 Hv Hs).
Defined.

Lemma reset_is_unsubscribe_all_witness :
  let s := Scenario.two_subscribed in
  mirrored (heap s) ∧
  (∃ s', Handler_reset 1 s = Normal tt s' ∧
         for_each [0] (λ e, Event_unsubscribe e 1) s = Normal tt s') ∧
  (∃ s', Event_reset 0 s = Normal tt s' ∧
         for_each [1; 2] (λ h, Event_unsubscribe 0 h) s = Normal tt s').
Proof.
  intros s.
  assert (mirrored (heap s)) as Hm
    by (apply mirroredb_sound; vm_compute; reflexivity).
  split; [exact Hm|].
  destruct (reset_is_unsubscribe_all s Hm) as [Hh He].
  split.
  - apply (Hh 1 (Some (Scenario.add_to 1)) [0]). reflexivity.
  - apply (He 0 [1; 2]). reflexivity.
Defined.

Lemma Event_move_ctor_takes_over_witness :
  let s := Scenario.two_subscribed in
  let fs := [Some (Scenario.add_to 1); Some (Scenario.add_to 2)] in
  mirrored (heap s) ∧
  events (heap s) !! 1 = None ∧
  events (heap s) !! 0 = Some (mkEvent [1; 2]) ∧
  Forall2 (has_function (heap s)) [1; 2] fs ∧
  ∃ s', Event_move_ctor 1 0 s = Normal tt s' ∧
        ∀ args,
          Event_invoke 0 args s' = Normal tt s' ∧
          Event_invoke 1 args s' =
          pass_outcome (heap s') (fan_out fs args (world s)).
Proof.
  intros s fs.
  assert (mirrored (heap s)) as Hm
    by (apply mirroredb_sound; vm_compute; reflexivity).
  assert (events (heap s) !! 1 = None) as H1 by reflexivity.
  assert (events (heap s) !! 0 = Some (mkEvent [1; 2])) as H0 by reflexivity.
  assert (Forall2 (has_function (heap s)) [1; 2] fs) as Hfs
    by (repeat constructor; eexists; reflexivity).
  split_and!; [done..|].
  exact (Event_move_ctor_takes_over s 1 0 [1; 2] fs Hm H1 H0 Hfs).
Defined.

Lemma Handler_swap_twice_witness :
  let s := Scenario.two_pairs in
  mirrored (heap s) ∧
  1 ≠ 2 ∧
  handlers (heap s) !! 1 = Some (mkHandler (Some (Scenario.add_to 1)) [0]) ∧
  handlers (heap s) !! 2 = Some (mkHandler (Some (Scenario.add_to 2)) [1]) ∧
  ∃ s', bind (Handler_swap 1 2) (λ _, Handler_swap 1 2) s = Normal tt s' ∧
        world s' = world s ∧
        handlers (heap s') = handlers (heap s) ∧
        ∀ e, subscribers (heap s') e =
             remove_all 2 (remove_all 1 (subscribers (heap s) e))
             ++ replicate (occurrences e [0]) 1
             ++ replicate (occurrences e [1]) 2.
Proof.
  intros s.
  assert (mirrored (heap s)) as Hm
    by (apply mirroredb_sound; vm_compute; reflexivity).
  assert (1 ≠ 2) as Hne by lia.
  assert (handlers (heap s) !! 1
          = Some (mkHandler (Some (Scenario.add_to 1)) [0])) as H1
    by reflexivity.
  assert (handlers (heap s) !! 2
          = Some (mkHandler (Some (Scenario.add_to 2)) [1])) as H2
    by reflexivity.
  split_and!; [done..|].
  exact (Handler_swap_twice s 1 2 _ _ _ _ Hm Hne H1 H2).
Defined.

Lemma self_swap_then_dtor_dangles_witness :
  let s := Scenario.one_subscribed in
  mirrored (heap s) ∧
  handlers (heap s) !! 1 = Some (mkHandler (Some (Scenario.add_to 1)) [0]) ∧
  0 ∈ [0] ∧
  ∃ s', bind (Handler_swap 1 1) (λ _, Handler_dtor 1) s = Normal tt s' ∧
        handlers (heap s') !! 1 = None ∧
        subscribers (heap s') 0 =
        remove_all 1 (subscribers (heap s) 0)
        ++ replicate (occurrences 0 [0]) 1 ∧
        1 ∈ subscribers (heap s') 0 ∧
        ∀ fs args w1,
          Forall2 (has_function (heap s))
                  (remove_all 1 (subscribers (heap s) 0)) fs →
          fan_out fs args (world s) = (None, w1) →
          Event_invoke 0 args s' = Undefined.
Proof.
  intros s.
  assert (mirrored (heap s)) as Hm
    by (apply mirroredb_sound; vm_compute; reflexivity).
  assert (handlers (heap s) !! 1
          = Some (mkHandler (Some (Scenario.add_to 1)) [0])) as H1
    by reflexivity.
  assert (0 ∈ [0]) as Hin by left.
  split_and!; [done..|].
  exact (self_swap_then_dtor_dangles s 1 _ [0] 0 Hm H1 Hin).
Defined.

Lemma Handler_ctor_member_invokes_witness :
  let s := Scenario.start in
  handlers (heap s) !! 1 = None ∧
  ∃ s', Handler_ctor_member 1 5 Scenario.testFunc1 s = Normal tt s' ∧
        Handler_ctor_const_member 1 5 Scenario.testFunc1 s = Normal tt s' ∧
        subscriptions (heap s') 1 = [] ∧
        ∀ args w,
          Handler_invoke 1 args (mkState (heap s') w) =
          match Scenario.testFunc1 5 args w with
          | MemberReturns _ w' => Normal tt (mkState (heap s') w')
          | MemberRaises x w' =>
              Throws (user_exception x) (mkState (heap s') w')
          end.
Proof.
  intros s.
  assert (handlers (heap s) !! 1 = None) as H1 by reflexivity.
  split; [exact H1|].
  exact (Handler_ctor_member_invokes s 1 5 Scenario.testFunc1 H1).
Defined.
